(** * EarthSim annotators: a shallow embedding of [earthsim/annotators.py]

    The Python module wires drawing tools and tables of an external plotting
    toolkit together.  What is embedded here is its own logic: the geometry
    adapter [poly_to_geopandas], the pretty-printer [GeoAnnotator.pprint],
    the group bookkeeping of [PointWidgetAnnotator] and the constructors of
    [PolyAnnotator] and [PointAnnotator].

    Conventions.
    - A Python [dict] is a [gmap]; the results proved do not depend on the
      iteration order of a dictionary.
    - A Python exception is the [Raise] branch of [result].
    - Python integers are [Z]; a Python string is held as its UTF-8 bytes
      ([string]).
    - Rendering, streams and links of the toolkit have no counterpart here;
      a stream trigger is a counter in the state. *)

From stdpp Require Import base gmap strings list sorting pretty.
From Stdlib Require Import ZArith Ascii.

Open Scope Z_scope.

(** ** Exceptions *)

Inductive exn : Set := IndexError | KeyError | ValueError.

Inductive result (A : Type) : Type :=
| Ok (a : A)
| Raise (e : exn).

Arguments Ok {A} a.
Arguments Raise {A} e.

Definition bind {A B : Type} (r : result A) (k : A → result B) : result B :=
  match r with
  | Ok a => k a
  | Raise e => Raise e
  end.

Notation "'do' x <- r ; k" := (bind r (λ x, k))
  (at level 10, x name, r at level 100, k at level 200).

(** [for x in xs: st = body(st, x)] where the body may raise. *)
Fixpoint for_each {A S : Type} (body : S → A → result S) (st : S) (xs : list A)
  : result S :=
  match xs with
  | [] => Ok st
  | x :: xs' => do st' <- body st x; for_each body st' xs'
  end.

Definition is_ok {A : Type} (r : result A) : Prop := ∃ a, r = Ok a.

(** ** PointWidgetAnnotator (annotators.py, lines 118-175) *)

Module PointWidgetAnnotator.

(** The part of the instance that [__init__] and [add_group] read and write:
    [group_objects] and [group] are the [group] selector's objects and its
    value, [point_sel_stream_index] is [self.point_sel_stream.index],
    [table_stream_events] counts [self.table_stream.trigger] calls. *)
Record t : Type := mk {
  group_objects : list string;
  group : string;
  point_sel_stream_index : list Z;
  _group_data : gmap string (list Z);
  table_stream_events : nat
}.

(** [{g: [] for g in groups}] *)
Definition empty_groups (groups : list string) : gmap string (list Z) :=
  foldl (λ d g, <[g := []]> d) ∅ groups.

(** Lines 137-144.  [groups[0]] raises [IndexError] on an empty list. *)
Definition __init__ (groups : list string) : result t :=
  match groups with
  | [] => Raise IndexError
  | g0 :: _ =>
      Ok {| group_objects := groups;
            group := g0;
            point_sel_stream_index := [];
            _group_data := empty_groups groups;
            table_stream_events := 0 |}
  end.

(** Lines 152-153, for one entry of the dictionary:
    [if g != self.group: self._group_data[g] = [idx for idx in inds if idx not in new_index]] *)
Definition drop_selected (new_index : list Z) (active g : string) (inds : list Z)
  : list Z :=
  if decide (g = active) then inds else filter (λ idx, idx ∉ new_index) inds.

(** Lines 149-153: the body of [for idx in new_index].
    [self._group_data[self.group]] raises [KeyError] for a missing key. *)
Definition add_index (new_index : list Z) (active : string)
    (data : gmap string (list Z)) (idx : Z) : result (gmap string (list Z)) :=
  match data !! active with
  | None => Raise KeyError
  | Some members =>
      let data1 :=
        if decide (idx ∈ members) then data
        else <[active := members ++ [idx]]> data in
      Ok (map_imap (λ g inds, Some (drop_selected new_index active g inds)) data1)
  end.

(** Lines 146-154. *)
Definition add_group (self : t) : result t :=
  let new_index := point_sel_stream_index self in
  do data <- for_each (add_index new_index (group self)) (_group_data self) new_index;
  Ok {| group_objects := group_objects self;
        group := group self;
        point_sel_stream_index := new_index;
        _group_data := data;
        table_stream_events := S (table_stream_events self) |}.

(** What the user interface does before the add button is pressed: the
    selection stream receives an index list and the selector a group. *)
Record action : Type := Action { selected : list Z; active : string }.

Definition prepare (a : action) (self : t) : t :=
  {| group_objects := group_objects self;
     group := active a;
     point_sel_stream_index := selected a;
     _group_data := _group_data self;
     table_stream_events := table_stream_events self |}.

Definition press_add (a : action) (self : t) : result t :=
  add_group (prepare a self).

(** The states after each action of a sequence, in order. *)
Fixpoint run (self : t) (acts : list action) : result (list t) :=
  match acts with
  | [] => Ok []
  | a :: acts' =>
      do self' <- press_add a self;
      do rest <- run self' acts';
      Ok (self' :: rest)
  end.

(** The membership list of the active group after the loop of [add_group]:
    each selected index is appended unless it is already there. *)
Definition appended (members xs : list Z) : list Z :=
  foldl (λ m idx, if decide (idx ∈ m) then m else m ++ [idx]) members xs.

(** Every index is in at most one membership list, and at most once there. *)
Definition exclusive (data : gmap string (list Z)) : Prop :=
  (∀ g inds, data !! g = Some inds → NoDup inds) ∧
  (∀ g1 g2 inds1 inds2 idx,
     g1 ≠ g2 → data !! g1 = Some inds1 → data !! g2 = Some inds2 →
     idx ∈ inds1 → idx ∉ inds2).

End PointWidgetAnnotator.

(** ** Values and tables *)

(** A Python scalar stored in a column.  Floating-point numbers are values
    of an uninterpreted type [F]: nothing below computes with them. *)
Inductive value (F : Type) : Type :=
| VNone
| VStr (s : string)
| VInt (n : Z)
| VFloat (x : F).

Arguments VNone {F}.
Arguments VStr {F} s.
Arguments VInt {F} n.
Arguments VFloat {F} x.

Global Instance value_eq_dec {F : Type} `{EqDecision F} : EqDecision (value F).
Proof. solve_decision. Defined.

(** ** Geometry adapter (annotators.py, lines 27-46) *)

(** A cell of the data frame: a string, a geometry, or the missing value
    that the data-frame constructor puts where a record has no entry. *)
Inductive cell (G : Type) : Type :=
| CStr (s : string)
| CGeom (g : G)
| CNaN.

Arguments CStr {G} s.
Arguments CGeom {G} g.
Arguments CNaN {G}.

(** A data frame: its column labels and, per row, one cell per label. *)
Record GeoDataFrame (G : Type) : Type := {
  gdf_columns : list string;
  gdf_rows : list (list (cell G))
}.

Arguments gdf_columns {G} _.
Arguments gdf_rows {G} _.

(** [gpd.GeoDataFrame(rows, columns=columns)] for a list of dictionaries
    (library constructor): the frame has the requested labels, and a cell
    is the record's entry under the label of its column.  The constructor
    refuses a frame in which more than one column is labelled [geometry]:
    it raises [ValueError]. *)
Definition GeoDataFrame_of_records {G : Type}
    (rows : list (gmap string (cell G))) (columns : list string)
  : result (GeoDataFrame G) :=
  if decide (1 < length (filter (λ c, c = "geometry") columns))%nat
  then Raise ValueError
  else
    Ok {| gdf_columns := columns;
          gdf_rows :=
            (λ record, (λ c, default CNaN (record !! c)) <$> columns) <$> rows |}.

(** [dict({c: '' for c in columns}, geometry=g)] *)
Definition blank_record {G : Type} (columns : list string) (g : G)
  : gmap string (cell G) :=
  <["geometry" := CGeom g]> (foldl (λ d c, <[c := CStr ""]> d) ∅ columns).

(** Lines 43-46; [geoms] is the sequence that iterating [polys.geom()] yields. *)
Definition poly_to_geopandas {G : Type} (geoms : list G) (columns : list string)
  : result (GeoDataFrame G) :=
  let rows := foldl (λ rows g, rows ++ [blank_record columns g]) [] geoms in
  GeoDataFrame_of_records rows (columns ++ ["geometry"]).

(** The table that the adapter is meant to build: the attribute columns
    followed by a geometry column, one row per geometry, empty strings in
    the attribute columns and the geometry in the last one. *)
Definition blank_table {G : Type} (geoms : list G) (columns : list string)
    (df : GeoDataFrame G) : Prop :=
  gdf_columns df = columns ++ ["geometry"] ∧
  gdf_rows df = (λ g, replicate (length columns) (CStr "") ++ [CGeom g]) <$> geoms.

(** ** GeoAnnotator.pprint (annotators.py, lines 106-112) *)

Module GeoAnnotator.

(** The newline character. *)
Definition nl : string := String (ascii_of_nat 10) "".

(** ['-' * n] *)
Fixpoint dashes (n : nat) : string :=
  match n with
  | O => ""
  | S n' => String "-" (dashes n')
  end.

(** [dict(pairs)]: a later pair overrides an earlier one with the same key. *)
Definition dict {V : Type} (pairs : list (string * V)) : gmap string V :=
  foldl (λ d kv, <[kv.1 := kv.2]> d) ∅ pairs.

(** Order of two items under Python's tuple comparison when the keys
    differ: the order of the keys, byte by byte. *)
Definition key_le {V : Type} (a b : string * V) : Prop :=
  String.le a.1 b.1.

Definition key_lt {V : Type} (a b : string * V) : Prop :=
  String.ltb a.1 b.1 = true.

Global Instance key_le_dec {V : Type} : RelDecision (@key_le V).
Proof. intros a b. unfold key_le. apply _. Defined.

(** [sorted(params.items())].  The keys of a dictionary are distinct, so
    the sorted list is the same for every sorting algorithm. *)
Definition sorted_items {V : Type} (params : gmap string V) : list (string * V) :=
  merge_sort key_le (map_to_list params).

(** ['  %s: %s\n' % item] *)
Definition line {V : Type} (str : V → string) (item : string * V) : string :=
  "  " +:+ item.1 +:+ ": " +:+ str item.2 +:+ nl.

(** A byte of the form 10xxxxxx, which continues a character in UTF-8. *)
Definition is_continuation (a : ascii) : bool :=
  match a with
  | Ascii _ _ _ _ _ _ b6 b7 => b7 && negb b6
  end.

(** [len(name)]: the number of characters of a string, which is held as
    its UTF-8 bytes. *)
Fixpoint len (s : string) : nat :=
  match s with
  | EmptyString => O
  | String a s' => if is_continuation a then len s' else S (len s')
  end.

(** ['%s\n%s\n\n' % (name, '-'*len(name))] *)
Definition header (name : string) : string :=
  name +:+ nl +:+ dashes (len name) +:+ nl +:+ nl.

(** Lines 106-112.  [get_param_values] is the list of (name, value) pairs
    of the instance, [str] renders a value as ['%s'] does; the result is
    the text written to standard output ([print] ends it with a newline).
    [params.pop('name')] raises [KeyError] when there is no such key. *)
Definition pprint {V : Type} (str : V → string)
    (get_param_values : list (string * V)) : result string :=
  let params := dict get_param_values in
  match params !! "name" with
  | None => Raise KeyError
  | Some name =>
      let params := delete "name" params in
      let string := header (str name) in
      let string := foldl (λ s item, s +:+ line str item) string (sorted_items params) in
      Ok (string +:+ nl)
  end.

End GeoAnnotator.

(** ** Elements of the plotting toolkit

    The data model of the toolkit's elements, as far as the annotators use
    it: named key and value dimensions, and rows that map a dimension name
    to a value.  The operations are primitives of the toolkit, not code of
    this repository; they are modelled after the toolkit's interface, for
    the calls the annotators make. *)

Module Element.

(** A row maps the name of a dimension to the value in that column. *)
Abbreviation row F := (gmap string (value F)).

Section element.
Context {F : Type} `{EqDecision F}.

(** [Points] and [Table]: one row per point. *)
Record Dataset : Type := mkDataset {
  kdims : list string;
  vdims : list string;
  rows : list (row F)
}.

(** [Path] and [Polygons]: one list of vertex rows per shape. *)
Record Path : Type := mkPath {
  path_kdims : list string;
  path_vdims : list string;
  shapes : list (list (row F))
}.

(** [l.insert(pos, x)] *)
Definition list_insert_at {A : Type} (pos : nat) (x : A) (l : list A) : list A :=
  take pos l ++ x :: drop pos l.

(** [col in points]: the name of a key or value dimension. *)
Definition contains (el : Dataset) (col : string) : Prop :=
  col ∈ kdims el ++ vdims el.

Definition path_contains (el : Path) (col : string) : Prop :=
  col ∈ path_kdims el ++ path_vdims el.

Global Instance contains_dec el col : Decision (contains el col).
Proof. unfold contains. apply _. Defined.

Global Instance path_contains_dec el col : Decision (path_contains el col).
Proof. unfold path_contains. apply _. Defined.

(** [points.add_dimension(dimension, dim_pos, dim_val, vdim)] for a
    dimension that the element does not have yet: the dimension is
    inserted at position [dim_pos] among the value (or key) dimensions and
    every row gets the scalar [dim_val] in the new column. *)
Definition add_dimension (dimension : string) (dim_pos : nat)
    (dim_val : value F) (vdim : bool) (el : Dataset) : Dataset :=
  {| kdims := if vdim then kdims el else list_insert_at dim_pos dimension (kdims el);
     vdims := if vdim then list_insert_at dim_pos dimension (vdims el) else vdims el;
     rows := (λ r : row F, <[dimension := dim_val]> r) <$> rows el |}.

(** The same for a path: every vertex row of every shape gets [dim_val]. *)
Definition path_add_dimension (dimension : string) (dim_pos : nat)
    (dim_val : value F) (vdim : bool) (el : Path) : Path :=
  {| path_kdims :=
       if vdim then path_kdims el else list_insert_at dim_pos dimension (path_kdims el);
     path_vdims :=
       if vdim then list_insert_at dim_pos dimension (path_vdims el) else path_vdims el;
     shapes :=
       (λ shape : list (row F), (λ r : row F, <[dimension := dim_val]> r) <$> shape)
         <$> shapes el |}.

(** The values of column [c] at the vertices of one shape. *)
Definition column (c : string) (shape : list (row F)) : list (value F) :=
  (λ r : row F, default VNone (r !! c)) <$> shape.

(** The distinct values of a list, in the order of their first occurrence. *)
Fixpoint unique (l : list (value F)) : list (value F) :=
  match l with
  | [] => []
  | v :: l' => v :: filter (λ w, w ≠ v) (unique l')
  end.

(** The distinct values of column [c] within one shape. *)
Definition distinct (c : string) (shape : list (row F)) : list (value F) :=
  unique (column c shape).

(** [polys.dimension_values(c, expanded=False)]: the distinct values of the
    column within each shape, concatenated over the shapes. *)
Definition dimension_values (c : string) (el : Path) : list (value F) :=
  shape ← shapes el; distinct c shape.

(** [Points(points, kdims)] for a list of coordinate tuples. *)
Definition Points (points : list (list (value F))) (kdims : list string) : Dataset :=
  {| kdims := kdims;
     vdims := [];
     rows := (λ tuple, list_to_map (zip kdims tuple) : row F) <$> points |}.

End element.

Arguments Dataset F : clear implicits.
Arguments Path F : clear implicits.

End Element.

(** ** PolyAnnotator (annotators.py, lines 178-219) *)

Module PolyAnnotator.

Section poly.
Context {F : Type} `{EqDecision F}.

(** [poly_table] is kept as the dictionary of columns it is built from. *)
Record t : Type := mk {
  polys : Element.Path F;
  poly_columns : list string;
  vertex_columns : list string;
  poly_table : gmap string (list (value F));
  vertex_table : Element.Dataset F
}.

(** Lines 198-200. *)
Definition add_columns (poly_columns : list string) (polys : Element.Path F)
  : Element.Path F :=
  foldl (λ polys col,
           if decide (Element.path_contains polys col) then polys
           else Element.path_add_dimension col 0 (VStr "") true polys)
        polys poly_columns.

(** Line 208: [{c: self.polys.dimension_values(c, expanded=False) for c in self.poly_columns}] *)
Definition poly_data (poly_columns : list string) (polys : Element.Path F)
  : gmap string (list (value F)) :=
  foldl (λ d c, <[c := Element.dimension_values c polys]> d) ∅ poly_columns.

(** Line 209: [set(len(v) for v in poly_data.values())] *)
Definition lengths (data : gmap string (list (value F))) : gset nat :=
  list_to_set (length <$> (map_to_list data).*2).

(** Lines 192-216.  [polys] is [self.polys] as the base constructor leaves
    it.  [stream_event] stands for lines 203-206: when the layer has data,
    the toolkit projects it, splits it into its shapes and sends their
    coordinates to the draw stream.  That step is the toolkit's; it may
    raise (it does for a shape without a vertex), and then the constructor
    raises; when it returns it has changed nothing of what is modelled
    here.  The links have no counterpart. *)
Definition __init__ (stream_event : Element.Path F → result unit)
    (polys : Element.Path F)
    (poly_columns vertex_columns : list string) : result t :=
  let polys := add_columns poly_columns polys in
  do sent <- stream_event polys;
  let poly_data := poly_data poly_columns polys in
  if decide (size (lengths poly_data) ≠ 1%nat) then Raise ValueError
  else
    Ok {| polys := polys;
          poly_columns := poly_columns;
          vertex_columns := vertex_columns;
          poly_table := poly_data;
          vertex_table :=
            Element.mkDataset (Element.path_kdims polys) vertex_columns [] |}.

(** Column [c] has more than one distinct value among the vertices of
    some shape. *)
Definition varies (polys : Element.Path F) (c : string) : Prop :=
  ∃ shape, shape ∈ Element.shapes polys ∧
           (1 < length (Element.distinct c shape))%nat.

Global Instance varies_dec (polys : Element.Path F) (c : string)
  : Decision (varies polys c).
Proof.
  refine (cast_if (decide (Exists (λ shape, (1 < length (Element.distinct c shape))%nat)
                             (Element.shapes polys))));
    unfold varies; rewrite Exists_exists in *; done.
Defined.

(** The number of distinct values of column [c], summed over the shapes. *)
Definition distinct_count (polys : Element.Path F) (c : string) : nat :=
  length (Element.dimension_values c polys).

End poly.

Arguments t F : clear implicits.

End PolyAnnotator.

(** ** PointAnnotator (annotators.py, lines 222-246) *)

Module PointAnnotator.

Section point.
Context {F : Type} `{EqDecision F}.

Record t : Type := mk {
  points : Element.Dataset F;
  point_columns : list string;
  point_table : Element.Dataset F
}.

(** Lines 237-239. *)
Definition add_columns (point_columns : list string) (points : Element.Dataset F)
  : Element.Dataset F :=
  foldl (λ points col,
           if decide (Element.contains points col) then points
           else Element.add_dimension col 0 VNone true points)
        points point_columns.

(** Lines 233-243.  [points] is [self.points] as the base constructor
    leaves it; [project] is [gv.project(_, projection=ccrs.PlateCarree())],
    a coordinate transformation of the toolkit.  [Table(projected)] has the
    dimensions and the rows of [projected]. *)
Definition __init__ (project : Element.Dataset F → Element.Dataset F)
    (points : Element.Dataset F) (point_columns : list string) : t :=
  let points := add_columns point_columns points in
  let projected := project points in
  {| points := points;
     point_columns := point_columns;
     point_table := projected |}.

(** What is assumed of the projection: it rewrites coordinates only, that
    is, it keeps the dimensions, the number of rows and every value
    dimension of every row. *)
Definition coordinates_only (project : Element.Dataset F → Element.Dataset F)
  : Prop :=
  ∀ el,
    Element.kdims (project el) = Element.kdims el ∧
    Element.vdims (project el) = Element.vdims el ∧
    length (Element.rows (project el)) = length (Element.rows el) ∧
    ∀ i r r' c,
      Element.rows el !! i = Some r →
      Element.rows (project el) !! i = Some r' →
      c ∈ Element.vdims el → r' !! c = r !! c.

(** Every row of the element has value [v] in column [c]. *)
Definition column_is (c : string) (v : value F) (el : Element.Dataset F) : Prop :=
  Forall (λ r : Element.row F, r !! c = Some v) (Element.rows el).

End point.

Arguments t F : clear implicits.

End PointAnnotator.


(** ** Tool initializer (annotators.py, lines 49-62) *)

Module Tools.

(** Modelled from the spec: the tool classes of [custom_tools.py], which is
    not at hand, are three unrelated types (checkpoint, restore, clear);
    every other model of a plot is of a fourth kind. *)
Inductive tool_type : Set := CheckpointTool | RestoreTool | ClearTool | OtherTool.

Global Instance tool_type_eq_dec : EqDecision tool_type.
Proof. solve_decision. Defined.

(** A tool of the plot with the data sources registered with it; a data
    source is identified by a number. *)
Record tool : Type := mkTool {
  type_of : tool_type;
  sources : list nat
}.

(** The rendered plot: its handles and the models of its state, in the
    order in which [select] reports them. *)
Record plot : Type := mkPlot {
  handles : gmap string nat;
  state : list tool
}.

(** [plot.state.select(type=...)]: the positions of the matching models. *)
Fixpoint select_from (type : tool_type) (pos : nat) (models : list tool) : list nat :=
  match models with
  | [] => []
  | t :: models' =>
      if decide (type_of t = type) then pos :: select_from type (S pos) models'
      else select_from type (S pos) models'
  end.

Definition select (type : tool_type) (models : list tool) : list nat :=
  select_from type 0 models.

(** [tool.sources.append(cds)] *)
Definition append_source (cds : nat) (t : tool) : tool :=
  {| type_of := type_of t; sources := sources t ++ [cds] |}.

(** [if found: found[0].sources.append(cds)] *)
Definition register (found : list nat) (cds : nat) (models : list tool) : list tool :=
  match found with
  | [] => models
  | first :: _ => alter (append_source cds) first models
  end.

(** Lines 53-62.  [plot.handles['source']] raises [KeyError] when the plot
    has no such handle. *)
Definition initialize_tools (p : plot) : result plot :=
  match handles p !! "source" with
  | None => Raise KeyError
  | Some cds =>
      let checkpoint := select CheckpointTool (state p) in
      let restore := select RestoreTool (state p) in
      let clear := select ClearTool (state p) in
      let models := register checkpoint cds (state p) in
      let models := register restore cds models in
      let models := register clear cds models in
      Ok {| handles := handles p; state := models |}
  end.

(** No model before position [pos] has the type of the one at [pos]. *)
Definition first_of_its_type (models : list tool) (pos : nat) : Prop :=
  ∀ j t t', (j < pos)%nat → models !! j = Some t → models !! pos = Some t' →
            type_of t ≠ type_of t'.

End Tools.

(** ** Derived views of PointWidgetAnnotator (annotators.py, lines 156-170) *)

Module PointWidgetViews.

(** Index [idx] is a member of some group. *)
Definition is_tagged (data : gmap string (list Z)) (idx : Z) : Prop :=
  ∃ g inds, data !! g = Some inds ∧ idx ∈ inds.

(** [str(inds)] for a list of integers, as in ['[2, 5]']. *)
Definition str_list (inds : list Z) : string :=
  "[" +:+ String.concat ", " (pretty <$> inds) +:+ "]".

(** Lines 156-159: one tuple per group, sorted by the key column.  The
    labels are distinct, so every sorting algorithm gives the same table. *)
Definition group_table (self : PointWidgetAnnotator.t) : list (string * string) :=
  let data := (λ item : string * list Z, (item.1, str_list item.2))
                <$> map_to_list (PointWidgetAnnotator._group_data self) in
  merge_sort GeoAnnotator.key_le data.

(** [for x in xs: ys.append(f(x))] where [f] may raise. *)
Fixpoint traverse {A B : Type} (f : A → result B) (xs : list A) : result (list B) :=
  match xs with
  | [] => Ok []
  | x :: xs' => do y <- f x; do ys <- traverse f xs'; Ok (y :: ys)
  end.

Section views.
Context {F : Type}.

(** Positional indexing of the rows by one integer, as [iloc] does it:
    a negative position counts from the end, a position outside
    [-n, n) raises [IndexError]. *)
Definition iloc1 (rows : list (Element.row F)) (i : Z) : result (Element.row F) :=
  let n := Z.of_nat (length rows) in
  let pos := if decide (i < 0) then n + i else i in
  if decide (0 ≤ pos < n) then
    match rows !! Z.to_nat pos with
    | Some r => Ok r
    | None => Raise IndexError
    end
  else Raise IndexError.

(** The positions that [iloc] accepts for [n] rows. *)
Definition in_range (n : nat) (i : Z) : Prop := - Z.of_nat n ≤ i < Z.of_nat n.

(** [element.iloc[idx]] for a list of positions. *)
Definition iloc (rows : list (Element.row F)) (idx : list Z)
  : result (list (Element.row F)) :=
  traverse (iloc1 rows) idx.

(** The label of a row in column [column], the key of [sort_values]. *)
Definition label (column : string) (r : Element.row F) : string :=
  match r !! column with
  | Some (VStr s) => s
  | _ => ""
  end.

Definition label_le (column : string) (r1 r2 : Element.row F) : Prop :=
  String.le (label column r1) (label column r2).

Global Instance label_le_dec column : RelDecision (label_le column).
Proof. intros r1 r2. unfold label_le. apply _. Defined.

(** Lines 165-166: the rows of the group's points, tagged with its label. *)
Definition tagged_rows (column : string) (element : Element.Dataset F)
    (item : string * list Z) : result (list (Element.row F)) :=
  do df <- iloc (Element.rows element) item.2;
  Ok ((λ r : Element.row F, <[column := VStr item.1]> r) <$> df).

(** Lines 161-170.  [element] is [self.point_stream.element], [column] is
    [self.column].  The rows with the same label come in the order the
    sorting routine leaves them in; the results below do not depend on it. *)
Definition annotated_points (column : string) (self : PointWidgetAnnotator.t)
    (element : Element.Dataset F) : result (Element.Dataset F) :=
  do groups <- traverse (tagged_rows column element)
                 (map_to_list (PointWidgetAnnotator._group_data self));
  let data :=
    match groups with
    | [] => []
    | _ => merge_sort (label_le column) (concat groups)
    end in
  Ok (Element.mkDataset (Element.kdims element) [column] data).

End views.

End PointWidgetViews.

(** ** Sample data *)

(** One shape with two vertices whose [Group] values differ. *)
Definition sample_polys : Element.Path Z :=
  Element.mkPath ["Longitude"; "Latitude"] ["Group"]
    [[ {[ "Longitude" := VInt 0; "Latitude" := VInt 0; "Group" := VStr "a" ]};
       {[ "Longitude" := VInt 1; "Latitude" := VInt 0; "Group" := VStr "b" ]} ]].

(** A plot with a source handle, two restore tools and a checkpoint tool. *)
Definition sample_plot : Tools.plot :=
  Tools.mkPlot {[ "source" := 7%nat ]}
    [Tools.mkTool Tools.OtherTool [];
     Tools.mkTool Tools.RestoreTool [1%nat];
     Tools.mkTool Tools.CheckpointTool [];
     Tools.mkTool Tools.RestoreTool []].

(** An annotator with two groups and three tagged points. *)
Definition sample_annotator : PointWidgetAnnotator.t :=
  PointWidgetAnnotator.mk ["A"; "B"] "A" [] {[ "A" := [2; 0]; "B" := [1] ]} 0.

(** Three coordinate tuples. *)
Definition sample_points : list (list (value Z)) :=
  [[VInt 1; VInt 2]; [VInt 3; VInt 4]; [VInt 5; VInt 6]].

(** * Properties *)

(** ** Dictionary comprehensions *)

(** [{k: f(k) for k in keys}], built by successive insertion. *)
Lemma comprehension_lookup {V : Type} (f : string → V) (keys : list string)
    (d : gmap string V) (k : string) :
  foldl (λ d k, <[k := f k]> d) d keys !! k
  = if decide (k ∈ keys) then Some (f k) else d !! k.
Proof.
  revert d. induction keys as [|k0 keys IH]; intros d; simpl; [done|].
  rewrite IH. destruct (decide (k ∈ keys)) as [Hin|Hnin].
  - by rewrite decide_True by (by right).
  - destruct (decide (k = k0)) as [->|Hne].
    + rewrite lookup_insert_eq. by rewrite decide_True by left.
    + rewrite lookup_insert_ne by done.
      rewrite decide_False; [done|]. by intros [?|?]%elem_of_cons.
Qed.

Lemma foldl_snoc_fmap {A B : Type} (f : A → B) (xs : list A) (acc : list B) :
  foldl (λ acc x, acc ++ [f x]) acc xs = acc ++ (f <$> xs).
Proof.
  revert acc. induction xs as [|x xs IH]; intros acc; simpl.
  - by rewrite app_nil_r.
  - rewrite IH. by rewrite <- app_assoc.
Qed.

(** ** Group bookkeeping *)

Section point_widget.
Import PointWidgetAnnotator.

Implicit Types (data : gmap string (list Z)) (inds members new_index : list Z).

Lemma appended_elem_of xs : ∀ members idx,
  idx ∈ appended members xs ↔ idx ∈ members ∨ idx ∈ xs.
Proof.
  induction xs as [|x xs IH]; intros members idx; simpl.
  - rewrite elem_of_nil. tauto.
  - fold (appended (if decide (x ∈ members) then members else members ++ [x]) xs).
    rewrite IH, elem_of_cons. case_decide.
    + split; [tauto|]. intros [?|[->|?]]; auto.
    + rewrite elem_of_app, list_elem_of_singleton. tauto.
Qed.

Lemma appended_NoDup xs : ∀ members, NoDup members → NoDup (appended members xs).
Proof.
  induction xs as [|x xs IH]; intros members Hnd; simpl; [done|].
  apply IH. case_decide; [done|].
  apply NoDup_app. split_and!; [done| |apply NoDup_singleton].
  intros y Hy ->%list_elem_of_singleton. done.
Qed.

Lemma empty_groups_lookup groups g :
  empty_groups groups !! g = if decide (g ∈ groups) then Some [] else None.
Proof.
  unfold empty_groups.
  by rewrite (comprehension_lookup (λ _, []) groups ∅ g), lookup_empty.
Qed.

Lemma add_index_lookup new_index active data members idx :
  data !! active = Some members →
  ∃ data', add_index new_index active data idx = Ok data' ∧
    data' !! active =
      Some (if decide (idx ∈ members) then members else members ++ [idx]) ∧
    ∀ g, g ≠ active →
      data' !! g = filter (λ i, i ∉ new_index) <$> data !! g.
Proof.
  intros Hact. unfold add_index. rewrite Hact. eexists. split; [done|]. split.
  - rewrite map_lookup_imap. unfold drop_selected.
    destruct (decide (idx ∈ members)).
    + rewrite Hact. simpl. by rewrite decide_True.
    + rewrite lookup_insert_eq. simpl. by rewrite decide_True.
  - intros g Hne. rewrite map_lookup_imap.
    assert ((if decide (idx ∈ members) then data
             else <[active:=members ++ [idx]]> data) !! g = data !! g) as ->.
    { case_decide; [done|]. by rewrite lookup_insert_ne. }
    destruct (data !! g) as [inds|]; simpl; [|done].
    unfold drop_selected. by rewrite decide_False.
Qed.

Lemma filter_filter_same (P : Z → Prop) `{∀ x, Decision (P x)} (l : list Z) :
  filter P (filter P l) = filter P l.
Proof.
  induction l as [|x l IH]; [done|].
  rewrite filter_cons. case_decide; [|done].
  rewrite filter_cons. rewrite decide_True by done. by rewrite IH.
Qed.

(** Closed form of the loop of [add_group]. *)
Lemma add_indices_lookup new_index active xs : ∀ data members,
  data !! active = Some members →
  ∃ data', for_each (add_index new_index active) data xs = Ok data' ∧
    data' !! active = Some (appended members xs) ∧
    ∀ g, g ≠ active →
      data' !! g =
        (if xs is [] then data !! g
         else filter (λ i, i ∉ new_index) <$> data !! g).
Proof.
  induction xs as [|x xs IH]; intros data members Hact; simpl.
  - by exists data.
  - destruct (add_index_lookup new_index active data members x Hact)
      as (data1 & -> & Hact1 & Hoth1). simpl.
    destruct (IH _ _ Hact1) as (data' & Hrun & Hact' & Hoth').
    exists data'. split_and!; [done|done|].
    intros g Hne. rewrite (Hoth' g Hne), (Hoth1 g Hne).
    destruct xs; [done|].
    destruct (data !! g); simpl; [|done]. by rewrite filter_filter_same.
Qed.

Lemma add_group_lookup self members :
  _group_data self !! group self = Some members →
  ∃ self', add_group self = Ok self' ∧
    group self' = group self ∧
    group_objects self' = group_objects self ∧
    _group_data self' !! group self
      = Some (appended members (point_sel_stream_index self)) ∧
    ∀ g, g ≠ group self →
      _group_data self' !! g =
        (if point_sel_stream_index self is [] then _group_data self !! g
         else filter (λ i, i ∉ point_sel_stream_index self)
                <$> _group_data self !! g).
Proof.
  intros Hact. unfold add_group.
  destruct (add_indices_lookup (point_sel_stream_index self) (group self)
              (point_sel_stream_index self) _ _ Hact) as (data' & -> & ? & ?).
  simpl. eexists. split; [done|]. simpl. done.
Qed.

Lemma add_group_dom self :
  group self ∈ dom (_group_data self) →
  ∃ self', add_group self = Ok self' ∧
    dom (_group_data self') = dom (_group_data self).
Proof.
  intros [members Hact]%elem_of_dom.
  destruct (add_group_lookup self members Hact) as (self' & Hrun & _ & _ & Ha & Ho).
  exists self'. split; [done|]. apply set_eq. intros g.
  rewrite !elem_of_dom. destruct (decide (g = group self)) as [->|Hne].
  - rewrite Ha, Hact. split; eauto.
  - rewrite (Ho g Hne). destruct (point_sel_stream_index self); [done|].
    by rewrite fmap_is_Some.
Qed.

Lemma add_group_exclusive self :
  group self ∈ dom (_group_data self) →
  exclusive (_group_data self) →
  ∃ self', add_group self = Ok self' ∧ exclusive (_group_data self').
Proof.
  intros [members Hact]%elem_of_dom [Hnd Hdisj].
  destruct (add_group_lookup self members Hact) as (self' & Hrun & _ & _ & Ha & Ho).
  exists self'. split; [done|].
  set (sel := point_sel_stream_index self) in *.
  assert (Hold : ∀ g inds, g ≠ group self → _group_data self' !! g = Some inds →
            ∃ old, _group_data self !! g = Some old ∧ inds ⊆ old ∧
                   (NoDup old → NoDup inds) ∧
                   (∀ idx, idx ∈ sel → idx ∈ inds → False)).
  { intros g inds Hne Hg. rewrite (Ho g Hne) in Hg. destruct sel as [|s sel'] eqn:Hsel.
    - exists inds. split_and!; [done|done|done|]. intros idx []%elem_of_nil.
    - destruct (_group_data self !! g) as [old|]; [|done].
      simpl in Hg. injection Hg as <-. exists old. split_and!; [done| | |].
      + intros y [_ ?]%list_elem_of_filter. done.
      + apply NoDup_filter.
      + intros idx Hin [Hnin _]%list_elem_of_filter. done. }
  split.
  - intros g inds Hg. destruct (decide (g = group self)) as [->|Hne].
    + rewrite Ha in Hg. injection Hg as <-. apply appended_NoDup. eauto.
    + destruct (Hold g inds Hne Hg) as (old & Hg0 & _ & Hnd' & _). eauto.
  - intros g1 g2 inds1 inds2 idx Hne H1 H2 Hin1 Hin2.
    destruct (decide (g1 = group self)) as [->|Hne1];
      [|destruct (decide (g2 = group self)) as [->|Hne2]].
    + rewrite Ha in H1. injection H1 as <-.
      destruct (Hold g2 inds2 (not_eq_sym Hne) H2) as (old & Hg0 & Hsub & _ & Hsel).
      apply appended_elem_of in Hin1 as [Hin1|Hin1]; [|by eauto].
      by apply (Hdisj (group self) g2 members old idx); auto.
    + rewrite Ha in H2. injection H2 as <-.
      destruct (Hold g1 inds1 Hne H1) as (old & Hg0 & Hsub & _ & Hsel).
      apply appended_elem_of in Hin2 as [Hin2|Hin2]; [|by eauto].
      by apply (Hdisj g1 (group self) old members idx); auto.
    + destruct (Hold g1 inds1 Hne1 H1) as (old1 & Hg1 & Hsub1 & _ & _).
      destruct (Hold g2 inds2 Hne2 H2) as (old2 & Hg2 & Hsub2 & _ & _).
      by apply (Hdisj g1 g2 old1 old2 idx); auto.
Qed.

(** Along any run whose active groups are keys of the dictionary, every
    action returns, the keys stay the same and [exclusive] is kept. *)
Lemma run_invariant (keys : gset string) acts : ∀ self,
  dom (_group_data self) = keys →
  exclusive (_group_data self) →
  Forall (λ a, active a ∈ keys) acts →
  ∃ states, run self acts = Ok states ∧
    length states = length acts ∧
    Forall (λ self', dom (_group_data self') = keys ∧
                     exclusive (_group_data self')) states.
Proof.
  induction acts as [|a acts IH]; intros self Hdom Hex Hacts; simpl.
  - by exists [].
  - apply Forall_cons in Hacts as [Ha Hacts].
    assert (group (prepare a self) ∈ dom (_group_data (prepare a self))) as Hin
      by (simpl; by rewrite Hdom).
    destruct (add_group_exclusive _ Hin Hex) as (self' & Hrun & Hex').
    destruct (add_group_dom _ Hin) as (self'' & Hrun' & Hdom').
    rewrite Hrun in Hrun'. injection Hrun' as <-.
    unfold press_add. rewrite Hrun. simpl in *. rewrite Hdom in Hdom'.
    destruct (IH self' Hdom' Hex' Hacts) as (states & -> & Hlen & Hall). simpl.
    exists (self' :: states). split_and!; [done|by rewrite <- Hlen|].
    by constructor.
Qed.

Lemma init_inv groups self :
  __init__ groups = Ok self →
  group_objects self = groups ∧ head groups = Some (group self) ∧
  dom (_group_data self) = list_to_set groups ∧
  (∀ g, g ∈ groups → _group_data self !! g = Some []) ∧
  exclusive (_group_data self).
Proof.
  destruct groups as [|g0 groups]; [done|]. intros [= <-]. simpl.
  split_and!; [done|done| | |].
  - apply set_eq. intros g. rewrite elem_of_dom, empty_groups_lookup.
    rewrite elem_of_union, elem_of_singleton, elem_of_list_to_set, <- elem_of_cons.
    case_decide; split; eauto; [by intros [? ?]|done].
  - intros g Hg. rewrite empty_groups_lookup. by rewrite decide_True.
  - split.
    + intros g inds. rewrite empty_groups_lookup.
      case_decide; [|done]. intros [= <-]. constructor.
    + intros g1 g2 inds1 inds2 idx _. rewrite empty_groups_lookup.
      case_decide; [|done]. by intros [= <-] _ ?%elem_of_nil.
Qed.

End point_widget.

(** C1.  Start from a freshly constructed Group-Tagging Annotator and press
    the add button any number of times, each time with an arbitrary list
    of selected indices and an arbitrary active group among the configured
    ones.  Every action returns, and in the state after each action every
    index occurs in at most one membership list and at most once there. *)
Theorem add_group_membership_exclusive
    (groups : list string) (self0 : PointWidgetAnnotator.t)
    (acts : list PointWidgetAnnotator.action) :
  PointWidgetAnnotator.__init__ groups = Ok self0 →
  Forall (λ a, PointWidgetAnnotator.active a ∈ groups) acts →
  ∃ states, PointWidgetAnnotator.run self0 acts = Ok states ∧
    length states = length acts ∧
    Forall (λ self, PointWidgetAnnotator.exclusive
                      (PointWidgetAnnotator._group_data self)) states.
Proof.
  intros Hinit Hacts.
  destruct (init_inv _ _ Hinit) as (_ & _ & Hdom & _ & Hex).
  destruct (run_invariant (list_to_set groups) acts self0 Hdom Hex)
    as (states & Hrun & Hlen & Hall).
  { eapply Forall_impl; [done|]. intros a Ha. by apply elem_of_list_to_set. }
  exists states. split_and!; [done|done|].
  eapply Forall_impl; [done|]. by intros self [_ ?].
Qed.

Lemma add_group_membership_exclusive_witness :
  ∃ states,
    PointWidgetAnnotator.run
      (PointWidgetAnnotator.mk ["A"; "B"] "A" []
         (PointWidgetAnnotator.empty_groups ["A"; "B"]) 0)
      [PointWidgetAnnotator.Action [2; 5] "A";
       PointWidgetAnnotator.Action [5; 7; 5] "B"] = Ok states ∧
    length states = 2%nat ∧
    Forall (λ self, PointWidgetAnnotator.exclusive
                      (PointWidgetAnnotator._group_data self)) states.
Proof.
  apply (add_group_membership_exclusive ["A"; "B"]); [reflexivity|].
  repeat constructor.
Defined.

(** C3.  Let [A] and [B] be distinct groups of the annotator and [i] an
    index.  Pressing add with [i] among the selected indices and [A] active,
    then again with [i] among the selected indices and [B] active, both
    return; afterwards [i] is in [B]'s list and in no other group's list. *)
Theorem reassign_moves_index
    (self : PointWidgetAnnotator.t) (i : Z) (A B : string) (sel1 sel2 : list Z) :
  A ≠ B →
  A ∈ dom (PointWidgetAnnotator._group_data self) →
  B ∈ dom (PointWidgetAnnotator._group_data self) →
  i ∈ sel1 → i ∈ sel2 →
  ∃ self1 self2,
    PointWidgetAnnotator.press_add (PointWidgetAnnotator.Action sel1 A) self
      = Ok self1 ∧
    PointWidgetAnnotator.press_add (PointWidgetAnnotator.Action sel2 B) self1
      = Ok self2 ∧
    (∃ inds, PointWidgetAnnotator._group_data self2 !! B = Some inds ∧ i ∈ inds) ∧
    (∀ g inds, g ≠ B →
       PointWidgetAnnotator._group_data self2 !! g = Some inds → i ∉ inds).
Proof.
  intros Hne HA HB Hi1 Hi2. unfold PointWidgetAnnotator.press_add.
  destruct (add_group_dom
              (PointWidgetAnnotator.prepare (PointWidgetAnnotator.Action sel1 A) self) HA)
    as (self1 & Hrun1 & Hdom1).
  simpl in Hdom1. rewrite <- Hdom1 in HB.
  apply elem_of_dom in HB as [members HB].
  destruct (add_group_lookup
              (PointWidgetAnnotator.prepare (PointWidgetAnnotator.Action sel2 B) self1)
              members HB) as (self2 & Hrun2 & _ & _ & Hact & Hoth).
  simpl in *. exists self1, self2. split_and!; [done|done| |].
  - eexists. split; [done|]. apply appended_elem_of. by right.
  - intros g inds Hg Hlook. rewrite (Hoth g Hg) in Hlook.
    destruct sel2 as [|s sel2]; [by apply elem_of_nil in Hi2|].
    destruct (PointWidgetAnnotator._group_data self1 !! g); [|done].
    injection Hlook as <-. by intros [? _]%list_elem_of_filter.
Qed.

Lemma reassign_moves_index_witness :
  ∃ self1 self2,
    PointWidgetAnnotator.press_add (PointWidgetAnnotator.Action [2; 5] "A")
      (PointWidgetAnnotator.mk ["A"; "B"] "A" []
         (PointWidgetAnnotator.empty_groups ["A"; "B"]) 0) = Ok self1 ∧
    PointWidgetAnnotator.press_add (PointWidgetAnnotator.Action [5] "B") self1
      = Ok self2 ∧
    (∃ inds, PointWidgetAnnotator._group_data self2 !! "B" = Some inds ∧ 5 ∈ inds) ∧
    (∀ g inds, g ≠ "B" →
       PointWidgetAnnotator._group_data self2 !! g = Some inds → 5 ∉ inds).
Proof.
  apply (reassign_moves_index _ 5 "A" "B" [2; 5] [5]).
  - discriminate.
  - apply elem_of_dom. vm_compute. eauto.
  - apply elem_of_dom. vm_compute. eauto.
  - vm_compute. right. left.
  - vm_compute. left.
Defined.

(** C4.  [PointWidgetAnnotator(groups=['A','B'])] returns an annotator whose
    active group is ['A'] and whose membership lists are all empty; pressing
    add with indices 2 and 5 selected and ['A'] active then yields the
    membership dictionary [{'A': [2, 5], 'B': []}]. *)
Theorem scenario_two_groups :
  ∃ self0 self1,
    PointWidgetAnnotator.__init__ ["A"; "B"] = Ok self0 ∧
    PointWidgetAnnotator.group self0 = "A" ∧
    PointWidgetAnnotator._group_data self0 = {[ "A" := []; "B" := [] ]} ∧
    PointWidgetAnnotator.press_add (PointWidgetAnnotator.Action [2; 5] "A") self0
      = Ok self1 ∧
    PointWidgetAnnotator._group_data self1 = {[ "A" := [2; 5]; "B" := [] ]}.
Proof.
  eexists _, _. split_and!; [reflexivity|reflexivity| |reflexivity|].
  - by vm_compute.
  - by vm_compute.
Qed.

(** C8.  For every state of the annotator, whatever the active group,
    [add_group] with an empty selection returns and leaves the membership
    dictionary as it was. *)
Theorem add_group_empty_selection (self : PointWidgetAnnotator.t) :
  PointWidgetAnnotator.point_sel_stream_index self = [] →
  ∃ self', PointWidgetAnnotator.add_group self = Ok self' ∧
    PointWidgetAnnotator._group_data self' = PointWidgetAnnotator._group_data self.
Proof.
  intros Hsel. unfold PointWidgetAnnotator.add_group. rewrite Hsel. simpl.
  by eexists.
Qed.

Lemma add_group_empty_selection_witness :
  ∃ self', PointWidgetAnnotator.add_group
             (PointWidgetAnnotator.mk ["A"; "B"] "C" []
                {[ "A" := [2; 5]; "B" := [3] ]} 4) = Ok self' ∧
    PointWidgetAnnotator._group_data self' = {[ "A" := [2; 5]; "B" := [3] ]}.
Proof.
  exact (add_group_empty_selection
           (PointWidgetAnnotator.mk ["A"; "B"] "C" []
              {[ "A" := [2; 5]; "B" := [3] ]} 4) eq_refl).
Defined.

(** C10.  Start from a freshly constructed annotator and press add any
    number of times with active groups among the configured ones.  Every
    action returns, and after each action the keys of the membership
    dictionary are exactly the labels given to the constructor. *)
Theorem add_group_keeps_labels
    (groups : list string) (self0 : PointWidgetAnnotator.t)
    (acts : list PointWidgetAnnotator.action) :
  PointWidgetAnnotator.__init__ groups = Ok self0 →
  Forall (λ a, PointWidgetAnnotator.active a ∈ groups) acts →
  dom (PointWidgetAnnotator._group_data self0) = list_to_set groups ∧
  ∃ states, PointWidgetAnnotator.run self0 acts = Ok states ∧
    length states = length acts ∧
    Forall (λ self, dom (PointWidgetAnnotator._group_data self)
                    = list_to_set groups) states.
Proof.
  intros Hinit Hacts.
  destruct (init_inv _ _ Hinit) as (_ & _ & Hdom & _ & Hex).
  split; [done|].
  destruct (run_invariant (list_to_set groups) acts self0 Hdom Hex)
    as (states & Hrun & Hlen & Hall).
  { eapply Forall_impl; [done|]. intros a Ha. by apply elem_of_list_to_set. }
  exists states. split_and!; [done|done|].
  eapply Forall_impl; [done|]. by intros self [? _].
Qed.

Lemma add_group_keeps_labels_witness :
  dom (PointWidgetAnnotator.empty_groups ["A"; "B"]) = list_to_set ["A"; "B"] ∧
  ∃ states,
    PointWidgetAnnotator.run
      (PointWidgetAnnotator.mk ["A"; "B"] "A" []
         (PointWidgetAnnotator.empty_groups ["A"; "B"]) 0)
      [PointWidgetAnnotator.Action [2; 5] "A";
       PointWidgetAnnotator.Action [5; 7; 5] "B"] = Ok states ∧
    length states = 2%nat ∧
    Forall (λ self, dom (PointWidgetAnnotator._group_data self)
                    = list_to_set ["A"; "B"]) states.
Proof.
  apply (add_group_keeps_labels ["A"; "B"]
           (PointWidgetAnnotator.mk ["A"; "B"] "A" []
              (PointWidgetAnnotator.empty_groups ["A"; "B"]) 0)); [reflexivity|].
  repeat constructor.
Defined.

(** ** Geometry adapter *)

Section adapter.
Context {G : Type}.

Lemma blank_record_attribute (columns : list string) (g : G) (c : string) :
  c ∈ columns → c ≠ "geometry" → blank_record columns g !! c = Some (CStr "").
Proof.
  intros Hin Hne. unfold blank_record. rewrite lookup_insert_ne by done.
  rewrite (comprehension_lookup (λ _, CStr "") columns ∅ c).
  by rewrite decide_True.
Qed.

Lemma blank_record_geometry (columns : list string) (g : G) :
  blank_record columns g !! "geometry" = Some (CGeom g).
Proof. unfold blank_record. by rewrite lookup_insert_eq. Qed.

Lemma geometry_label_once (columns : list string) :
  "geometry" ∉ columns →
  length (filter (λ c, c = "geometry") (columns ++ ["geometry"])) = 1%nat.
Proof.
  induction columns as [|c columns IH]; intros Hgeo; [done|].
  simpl. rewrite filter_cons, decide_False.
  - apply IH. intros ?. apply Hgeo. by right.
  - intros ->. apply Hgeo. left.
Qed.

Lemma poly_to_geopandas_rows (geoms : list G) (columns : list string) :
  "geometry" ∉ columns →
  poly_to_geopandas geoms columns
  = Ok {| gdf_columns := columns ++ ["geometry"];
          gdf_rows :=
            (λ g, ((λ c, default CNaN (blank_record columns g !! c)) <$> columns)
                  ++ [CGeom g]) <$> geoms |}.
Proof.
  intros Hgeo. unfold poly_to_geopandas, GeoDataFrame_of_records.
  rewrite geometry_label_once by done.
  rewrite decide_False by lia. do 2 f_equal.
  rewrite (foldl_snoc_fmap (blank_record columns) geoms []). simpl.
  rewrite <- list_fmap_compose. apply list_fmap_ext. intros _ g _. simpl.
  rewrite fmap_app. simpl. by rewrite blank_record_geometry.
Qed.

Lemma blank_cells (columns sub : list string) (g : G) :
  sub ⊆ columns → "geometry" ∉ sub →
  (λ c, default CNaN (blank_record columns g !! c)) <$> sub
  = replicate (length sub) (CStr "").
Proof.
  induction sub as [|c sub IH]; intros Hsub Hgeo; simpl; [done|].
  rewrite blank_record_attribute; simpl.
  - f_equal. apply IH; [|by intros ?; apply Hgeo; right].
    intros x Hx. apply Hsub. by right.
  - apply Hsub. by left.
  - intros ->. apply Hgeo. by left.
Qed.

End adapter.

(** C5 (as amended).  For every collection of geometries and every list of
    attribute column names that does not contain the name [geometry], the
    adapter returns a table whose columns are the given names followed by
    [geometry], with exactly one row per geometry, in order; in each row
    every attribute column holds the empty string and the geometry column
    holds the geometry.  Without geometries the table has no rows and the
    same columns. *)
Theorem poly_to_geopandas_blank_table
    {G : Type} (geoms : list G) (columns : list string) :
  "geometry" ∉ columns →
  ∃ df,
    poly_to_geopandas geoms columns = Ok df ∧
    blank_table geoms columns df ∧
    length (gdf_rows df) = length geoms ∧
    (geoms = [] → gdf_rows df = []).
Proof.
  intros Hgeo. rewrite poly_to_geopandas_rows by done.
  eexists. split; [done|]. simpl.
  assert (Hrows :
    (λ g, ((λ c, default CNaN (blank_record columns g !! c)) <$> columns)
          ++ [CGeom g]) <$> geoms
    = (λ g, replicate (length columns) (CStr "") ++ [CGeom g]) <$> geoms).
  { apply list_fmap_ext. intros _ g _. by rewrite blank_cells. }
  rewrite Hrows. split_and!.
  - by split.
  - by rewrite length_fmap.
  - by intros ->.
Qed.

Lemma poly_to_geopandas_blank_table_witness :
  ∃ df,
    poly_to_geopandas [7%nat; 8%nat] ["Group"; "Depth"] = Ok df ∧
    blank_table [7%nat; 8%nat] ["Group"; "Depth"] df ∧
    length (gdf_rows df) = 2%nat ∧
    ([7%nat; 8%nat] = [] → gdf_rows df = []).
Proof.
  apply (poly_to_geopandas_blank_table [7%nat; 8%nat] ["Group"; "Depth"]).
  by compute_done.
Defined.

(** C5 as stated fails: with the single attribute column [geometry] the
    frame would have two columns labelled [geometry], the constructor of
    the frame raises [ValueError] and no table is returned. *)
Lemma poly_to_geopandas_geometry_column_clash :
  ¬ ∃ df, poly_to_geopandas [7%nat] ["geometry"] = Ok df ∧
          blank_table [7%nat] ["geometry"] df.
Proof. intros (df & Hdf & _). vm_compute in Hdf. discriminate Hdf. Qed.

(** ** Pretty-printer *)

Section pprint.
Import GeoAnnotator.
Context {V : Type} (str : V → string).

Lemma string_app_assoc (s1 s2 s3 : string) : (s1 +:+ s2) +:+ s3 = s1 +:+ s2 +:+ s3.
Proof.
  induction s1 as [|a s1 IH]; [done|].
  change (String a ((s1 +:+ s2) +:+ s3) = String a (s1 +:+ s2 +:+ s3)).
  by rewrite IH.
Qed.

Lemma string_app_nil_r (s : string) : s +:+ "" = s.
Proof.
  induction s as [|a s IH]; [done|].
  change (String a (s +:+ "") = String a s). by rewrite IH.
Qed.

Lemma concat_cons (x : string) (xs : list string) :
  String.concat "" (x :: xs) = x +:+ String.concat "" xs.
Proof. destruct xs; simpl; [by rewrite string_app_nil_r|done]. Qed.

(** The accumulation loop of [pprint] appends the lines in order. *)
Lemma foldl_lines (f : string * V → string) (items : list (string * V)) :
  ∀ s0, foldl (λ s item, s +:+ f item) s0 items
        = s0 +:+ String.concat "" (f <$> items).
Proof.
  induction items as [|item items IH]; intros s0.
  - simpl. by rewrite string_app_nil_r.
  - rewrite fmap_cons, concat_cons. simpl. by rewrite IH, string_app_assoc.
Qed.

Lemma dict_list_to_map (pairs : list (string * V)) :
  dict pairs = list_to_map (reverse pairs).
Proof.
  unfold dict, list_to_map.
  cut (∀ d : gmap string V,
         foldl (λ d kv, <[kv.1 := kv.2]> d) d pairs
         = foldr (λ kv, <[kv.1 := kv.2]>) d (reverse pairs)); [by intros ->|].
  induction pairs as [|kv pairs IH]; intros d; [done|].
  simpl. by rewrite IH, reverse_cons, foldr_app.
Qed.

Lemma dict_lookup (pairs : list (string * V)) (k : string) (v : V) :
  NoDup pairs.*1 → dict pairs !! k = Some v ↔ (k, v) ∈ pairs.
Proof.
  intros Hnd. rewrite dict_list_to_map, <- elem_of_list_to_map.
  - by rewrite elem_of_reverse.
  - by rewrite fmap_reverse, reverse_Permutation.
Qed.

Lemma items_without_name (pairs : list (string * V)) :
  NoDup pairs.*1 →
  map_to_list (delete "name" (dict pairs)) ≡ₚ filter (λ kv, kv.1 ≠ "name") pairs.
Proof.
  intros Hnd. apply NoDup_Permutation.
  - apply NoDup_map_to_list.
  - apply NoDup_filter. by eapply NoDup_fmap_1.
  - intros [k v]. rewrite elem_of_map_to_list, list_elem_of_filter. simpl.
    rewrite lookup_delete_Some, dict_lookup by done.
    split; intros [? ?]; by split.
Qed.

Global Instance key_le_trans : Transitive (@key_le V).
Proof. intros a b c. unfold key_le. apply transitivity. Qed.

Global Instance key_le_total : Total (@key_le V).
Proof. intros a b. unfold key_le. apply total, _. Qed.

Lemma key_le_lt (a b : string * V) : key_le a b → a.1 ≠ b.1 → key_lt a b.
Proof.
  unfold key_le, key_lt, String.le, String.leb, String.ltb. intros Hle Hne.
  destruct (a.1 ?= b.1)%string eqn:Hcmp; [|done|done].
  by apply String.compare_eq_iff in Hcmp.
Qed.

Lemma sorted_strictly (items : list (string * V)) :
  NoDup items.*1 → StronglySorted key_le items → StronglySorted key_lt items.
Proof.
  induction 2 as [|a items Hsorted IH Hall]; [constructor|].
  rewrite fmap_cons in *. apply NoDup_cons in H as [Hnotin Hnd].
  constructor; [by apply IH|].
  apply Forall_forall. intros b Hb. apply key_le_lt.
  - by eapply Forall_forall in Hall.
  - intros Heq. apply Hnotin. rewrite Heq. by apply list_elem_of_fmap_2.
Qed.

Lemma sorted_items_spec (params : gmap string V) :
  sorted_items params ≡ₚ map_to_list params ∧
  StronglySorted key_lt (sorted_items params).
Proof.
  unfold sorted_items. split; [apply merge_sort_Permutation|].
  apply sorted_strictly.
  - rewrite merge_sort_Permutation. apply NoDup_fst_map_to_list.
  - apply StronglySorted_merge_sort; apply _.
Qed.

End pprint.

Lemma dashes_replicate (n : nat) :
  GeoAnnotator.dashes n = String.string_of_list_ascii (replicate n ("-" : ascii)).
Proof. induction n as [|n IH]; [done|]. simpl. by rewrite IH. Qed.

(** C9.  Let the instance have parameters with distinct names, one of them
    [name].  [pprint] writes the instance name, a line of as many dashes as
    the name has characters and an empty line, then one line made of two
    spaces, the key, a colon, a space and the value for every parameter
    other than [name] and for no other key, the lines in strictly
    ascending order of key (the order of Python strings, which is
    alphabetical order on lower-case names). *)
Theorem pprint_lists_parameters
    {V : Type} (str : V → string) (get_param_values : list (string * V)) (name : V) :
  NoDup get_param_values.*1 →
  ("name", name) ∈ get_param_values →
  ∃ items,
    (let lf := String (ascii_of_nat 10) "" in
     GeoAnnotator.pprint str get_param_values
     = Ok (str name +:+ lf
           +:+ String.string_of_list_ascii
                 (replicate (GeoAnnotator.len (str name)) ("-" : ascii))
           +:+ lf +:+ lf
           +:+ String.concat ""
                 ((λ item : string * V,
                     "  " +:+ item.1 +:+ ": " +:+ str item.2 +:+ lf) <$> items)
           +:+ lf)) ∧
    items ≡ₚ filter (λ kv, kv.1 ≠ "name") get_param_values ∧
    StronglySorted (λ a b : string * V, String.ltb a.1 b.1 = true) items.
Proof.
  intros Hnd Hname. unfold GeoAnnotator.pprint.
  apply (dict_lookup _ _ _ Hnd) in Hname as ->.
  destruct (sorted_items_spec (delete "name" (GeoAnnotator.dict get_param_values)))
    as [Hperm Hsorted].
  exists (GeoAnnotator.sorted_items
            (delete "name" (GeoAnnotator.dict get_param_values))).
  split_and!; [|by rewrite Hperm; apply items_without_name|exact Hsorted].
  cbv zeta. rewrite foldl_lines. unfold GeoAnnotator.header.
  rewrite dashes_replicate, !string_app_assoc. reflexivity.
Qed.

Lemma pprint_lists_parameters_witness :
  ∃ items,
    (let lf := String (ascii_of_nat 10) "" in
     GeoAnnotator.pprint (λ v : string, v)
       [("width", "900"); ("name", "Géo"); ("height", "500")]
     = Ok ("Géo" +:+ lf +:+ "---" +:+ lf +:+ lf
           +:+ String.concat ""
                 ((λ item : string * string,
                     "  " +:+ item.1 +:+ ": " +:+ item.2 +:+ lf) <$> items)
           +:+ lf)) ∧
    items ≡ₚ filter (λ kv, kv.1 ≠ "name")
               [("width", "900"); ("name", "Géo"); ("height", "500")] ∧
    StronglySorted (λ a b : string * string, String.ltb a.1 b.1 = true) items.
Proof.
  refine (pprint_lists_parameters (λ v : string, v)
            [("width", "900"); ("name", "Géo"); ("height", "500")] "Géo" _ _).
  - simpl. repeat (apply NoDup_cons; split; [by compute_done|]). apply NoDup_nil_2.
  - right. left.
Defined.

(** ** Polygon table *)

Section poly_table.
Import Element PolyAnnotator.
Context {F : Type} `{EqDecision F}.

Implicit Types (polys : Path F) (shape : list (row F)) (c col : string).
Implicit Types (stream : Path F → result unit).

Lemma init_cases stream polys cols vcols :
  is_ok (stream (add_columns cols polys)) →
  __init__ stream polys cols vcols = Raise ValueError
  ∨ is_ok (__init__ stream polys cols vcols).
Proof. intros [sent Hsent]. unfold __init__, is_ok. rewrite Hsent. simpl. case_decide; eauto. Qed.

Lemma init_raises stream polys cols vcols :
  is_ok (stream (add_columns cols polys)) →
  __init__ stream polys cols vcols = Raise ValueError
  ↔ size (lengths (poly_data cols (add_columns cols polys))) ≠ 1%nat.
Proof.
  intros [sent Hsent]. unfold __init__. rewrite Hsent. simpl.
  case_decide; split; done.
Qed.

(** The constructor does not return when the stream step does not. *)
Lemma init_needs_stream stream polys cols vcols :
  is_ok (__init__ stream polys cols vcols) →
  is_ok (stream (add_columns cols polys)).
Proof.
  unfold __init__, is_ok. destruct (stream (add_columns cols polys)); simpl; eauto.
  by intros [? ?].
Qed.

Lemma elem_of_unique (l : list (value F)) (x : value F) : x ∈ unique l ↔ x ∈ l.
Proof.
  induction l as [|v l IH]; [done|]. simpl.
  rewrite !elem_of_cons, list_elem_of_filter, IH.
  destruct (decide (x = v)); tauto.
Qed.

Lemma NoDup_unique (l : list (value F)) : NoDup (unique l).
Proof.
  induction l as [|v l IH]; simpl; [constructor|].
  apply NoDup_cons. split; [|by apply NoDup_filter].
  by intros [? _]%list_elem_of_filter.
Qed.

Lemma lengths_elem_of cols polys (n : nat) :
  n ∈ lengths (poly_data cols polys)
  ↔ ∃ c, c ∈ cols ∧ n = distinct_count polys c.
Proof.
  unfold lengths, poly_data, distinct_count.
  rewrite elem_of_list_to_set, list_elem_of_fmap. split.
  - intros (v & -> & ([c v'] & -> & Hin%elem_of_map_to_list)%list_elem_of_fmap).
    rewrite (comprehension_lookup (λ c, dimension_values c polys) cols ∅ c) in Hin.
    case_decide; [|done]. injection Hin as <-. eauto.
  - intros (c & Hc & ->). eexists. split; [done|].
    apply list_elem_of_fmap. exists (c, dimension_values c polys). split; [done|].
    apply elem_of_map_to_list.
    rewrite (comprehension_lookup (λ c, dimension_values c polys) cols ∅ c).
    by rewrite decide_True.
Qed.

(** The test of line 209 for a non-empty column list. *)
Lemma lengths_differ cols polys :
  cols ≠ [] →
  size (lengths (poly_data cols polys)) ≠ 1%nat
  ↔ ∃ c1 c2, c1 ∈ cols ∧ c2 ∈ cols ∧ distinct_count polys c1 ≠ distinct_count polys c2.
Proof.
  intros Hne. split.
  - intros Hsize. destruct cols as [|c0 cols]; [done|].
    destruct (decide (Forall (λ c, distinct_count polys c = distinct_count polys c0)
                        (c0 :: cols))) as [Hall|Hex].
    + exfalso. apply Hsize.
      assert (lengths (poly_data (c0 :: cols) polys) = {[distinct_count polys c0]}) as ->.
      { apply set_eq. intros n. rewrite lengths_elem_of, elem_of_singleton. split.
        - intros (c & Hc & ->). by eapply Forall_forall in Hall.
        - intros ->. exists c0. split; [left|done]. }
      apply size_singleton.
    + apply not_Forall_Exists, Exists_exists in Hex as (c & Hc & Hdiff); [|apply _].
      exists c, c0. split_and!; [done|left|done].
  - intros (c1 & c2 & Hc1 & Hc2 & Hdiff) Hsize. apply Hdiff.
    apply (size_singleton_inv _ _ _ Hsize); apply lengths_elem_of; eauto.
Qed.

Lemma NoDup_constant_length (v : value F) (l : list (value F)) :
  NoDup l → (∀ x, x ∈ l → x = v) → (length l ≤ 1)%nat.
Proof.
  intros Hnd Hall. destruct l as [|a [|b l]]; simpl; [lia|lia|].
  exfalso. apply NoDup_cons in Hnd as [Hnotin _]. apply Hnotin.
  assert (a = v) as -> by (apply Hall; left).
  assert (b = v) as -> by (apply Hall; right; left).
  left.
Qed.

Lemma distinct_constant c shape (v : value F) :
  (∀ r, r ∈ shape → default VNone (r !! c) = v) →
  (length (distinct c shape) ≤ 1)%nat.
Proof.
  intros Hall. apply (NoDup_constant_length v); [apply NoDup_unique|].
  intros x. unfold distinct, column.
  rewrite elem_of_unique, list_elem_of_fmap. intros (r & -> & Hr). eauto.
Qed.

Lemma distinct_nonempty c shape :
  shape ≠ [] → (0 < length (distinct c shape))%nat.
Proof.
  destruct shape as [|r shape]; [done|]. intros _.
  assert (default VNone (r !! c) ∈ distinct c (r :: shape)) as Hin.
  { unfold distinct, column. rewrite elem_of_unique, fmap_cons. left. }
  destruct (distinct c (r :: shape)); [by apply elem_of_nil in Hin|simpl; lia].
Qed.

(** A column that does not vary within a shape has one distinct value
    there, or none when the shape has no vertex. *)
Lemma distinct_nonvarying c shape :
  ¬ (1 < length (distinct c shape))%nat →
  length (distinct c shape) = if shape is [] then 0%nat else 1%nat.
Proof.
  intros Hle. destruct shape as [|r shape]; [done|].
  pose proof (distinct_nonempty c (r :: shape) ltac:(done)). lia.
Qed.

Lemma dimension_values_length c1 c2 (shapes : list (list (row F))) kd vd :
  (∀ shape, shape ∈ shapes →
     length (distinct c1 shape) = length (distinct c2 shape)) →
  distinct_count (mkPath kd vd shapes) c1 = distinct_count (mkPath kd vd shapes) c2.
Proof.
  unfold distinct_count, dimension_values. simpl.
  induction shapes as [|shape shapes IH]; intros Hall; [done|].
  rewrite !bind_cons, !length_app. rewrite (Hall shape) by left.
  rewrite IH; [done|]. intros shape' ?. apply Hall. by right.
Qed.

(** Two columns that vary in no shape have the same number of distinct
    values in total: the number of shapes with a vertex. *)
Lemma nonvarying_same_count polys c1 c2 :
  ¬ varies polys c1 → ¬ varies polys c2 →
  distinct_count polys c1 = distinct_count polys c2.
Proof.
  intros H1 H2. destruct polys as [kd vd shapes].
  apply dimension_values_length. intros shape Hin.
  rewrite !distinct_nonvarying; [done| |].
  - intros ?. apply H2. by exists shape.
  - intros ?. apply H1. by exists shape.
Qed.

(** What lines 198-200 do to the vertex rows: every row is rewritten by
    one function, which either fills a column with the empty string or
    leaves it as it was. *)
Lemma add_columns_shapes cols : ∀ polys,
  ∃ g : row F → row F,
    shapes (add_columns cols polys)
      = (λ shape : list (row F), g <$> shape) <$> shapes polys ∧
    ∀ c, (∀ r, g r !! c = Some (VStr "")) ∨ (∀ r, g r !! c = r !! c).
Proof.
  unfold add_columns.
  induction cols as [|col cols IH]; intros polys; simpl.
  - exists id. split; [|by right].
    rewrite <- (list_fmap_id (shapes polys)) at 1.
    apply list_fmap_ext. intros _ shape _. by rewrite list_fmap_id.
  - case_decide as Hin.
    + apply IH.
    + destruct (IH (path_add_dimension col 0 (VStr "") true polys))
        as (g & Hshapes & Hg).
      exists (λ r, g (<[col := VStr ""]> r)). split.
      * rewrite Hshapes. simpl. rewrite <- list_fmap_compose.
        apply list_fmap_ext. intros _ shape _. simpl.
        by rewrite <- list_fmap_compose.
      * intros c. destruct (Hg c) as [Hconst|Hsame]; [by left|].
        destruct (decide (c = col)) as [->|Hne].
        -- left. intros r. by rewrite Hsame, lookup_insert_eq.
        -- right. intros r. by rewrite Hsame, lookup_insert_ne.
Qed.

Lemma add_columns_varies cols polys c :
  varies (add_columns cols polys) c → varies polys c.
Proof.
  destruct (add_columns_shapes cols polys) as (g & Hshapes & Hg).
  intros (shape' & Hin & Hlen). rewrite Hshapes in Hin.
  apply list_elem_of_fmap in Hin as (shape & -> & Hin).
  destruct (Hg c) as [Hconst|Hsame].
  - exfalso. assert (length (distinct c (g <$> shape)) ≤ 1)%nat; [|lia].
    apply (distinct_constant c (g <$> shape) (VStr "")).
    intros r' (r & -> & _)%list_elem_of_fmap. by rewrite Hconst.
  - exists shape. split; [done|].
    assert (column c (g <$> shape) = column c shape) as Hcol.
    { unfold column. rewrite <- list_fmap_compose.
      apply list_fmap_ext. intros _ r _. simpl. by rewrite Hsame. }
    unfold distinct in *. by rewrite <- Hcol.
Qed.

End poly_table.

(** C2.  The code at the failing input: with [poly_columns=['Group']] and
    one shape whose two vertices have the [Group] values ['a'] and ['b'],
    the configured per-shape column has two distinct values within the
    shape, and yet the constructor returns (the stream step of lines
    203-206 passing) instead of raising the validation error. *)
Theorem poly_init_accepts_single_varying_column
    (stream_event : Element.Path Z → result unit) :
  is_ok (stream_event (PolyAnnotator.add_columns ["Group"] sample_polys)) →
  PolyAnnotator.varies sample_polys "Group" ∧
  is_ok (PolyAnnotator.__init__ stream_event sample_polys ["Group"] []).
Proof.
  intros Hstream. split.
  - exists (hd [] (Element.shapes sample_polys)). split; [left|].
    vm_compute. lia.
  - destruct (init_cases stream_event sample_polys ["Group"] [] Hstream)
      as [Hraise|Hok]; [|done].
    apply init_raises in Hraise; [|done]. destruct Hraise. by vm_compute.
Qed.

Lemma poly_init_accepts_single_varying_column_witness :
  PolyAnnotator.varies sample_polys "Group" ∧
  is_ok (PolyAnnotator.__init__ (λ _, Ok ()) sample_polys ["Group"] []).
Proof.
  apply (poly_init_accepts_single_varying_column (λ _, Ok ())). by eexists.
Defined.

(** C7.  With an empty per-shape column list the constructor never
    returns, whatever the shapes and the per-vertex columns: when the
    stream step of lines 203-206 passes it raises the validation error.
    With one per-shape column and an empty per-vertex column list it
    returns when the stream step passes. *)
Theorem poly_init_empty_columns
    {F : Type} `{EqDecision F} (stream_event : Element.Path F → result unit)
    (polys : Element.Path F) (vertex_columns : list string) (c : string) :
  ¬ is_ok (PolyAnnotator.__init__ stream_event polys [] vertex_columns) ∧
  (is_ok (stream_event polys) →
   PolyAnnotator.__init__ stream_event polys [] vertex_columns = Raise ValueError) ∧
  (is_ok (stream_event (PolyAnnotator.add_columns [c] polys)) →
   is_ok (PolyAnnotator.__init__ stream_event polys [c] [])).
Proof.
  assert (Hempty : is_ok (stream_event polys) →
    PolyAnnotator.__init__ stream_event polys [] vertex_columns = Raise ValueError).
  { intros Hstream. apply init_raises; [done|]. simpl.
    unfold PolyAnnotator.lengths, PolyAnnotator.poly_data.
    simpl. rewrite map_to_list_empty. by vm_compute. }
  split_and!; [|done|].
  - intros Hok. pose proof (init_needs_stream _ _ _ _ Hok) as Hstream.
    rewrite (Hempty Hstream) in Hok. by destruct Hok.
  - intros Hstream.
    destruct (init_cases stream_event polys [c] [] Hstream) as [Hraise|Hok]; [|done].
    apply init_raises in Hraise; [|done]. destruct Hraise.
    set (ext := PolyAnnotator.add_columns [c] polys).
    assert (PolyAnnotator.lengths (PolyAnnotator.poly_data [c] ext)
            = {[PolyAnnotator.distinct_count ext c]}) as ->.
    { apply set_eq. intros n. rewrite lengths_elem_of, elem_of_singleton. split.
      - by intros (c' & ->%list_elem_of_singleton & ->).
      - intros ->. exists c. split; [left|done]. }
    apply size_singleton.
Qed.

Lemma poly_init_empty_columns_witness :
  ¬ is_ok (PolyAnnotator.__init__ (λ _, Ok ()) sample_polys [] []) ∧
  PolyAnnotator.__init__ (λ _, Ok ()) sample_polys [] [] = Raise ValueError ∧
  is_ok (PolyAnnotator.__init__ (λ _, Ok ()) sample_polys ["Depth"] []).
Proof.
  destruct (poly_init_empty_columns (λ _, Ok ()) sample_polys [] "Depth")
    as (Hnever & Hraise & Hone).
  split_and!; [exact Hnever|apply Hraise; by eexists|apply Hone; by eexists].
Defined.

(** ** Point table *)

Section point_table.
Import Element PointAnnotator.
Context {F : Type}.

Lemma add_size_column (pts : list (list (value F))) (kd : list string) :
  "Size" ∉ kd →
  add_columns ["Size"] (Points pts kd)
  = add_dimension "Size" 0 VNone true (Points pts kd).
Proof.
  intros Hnotin. unfold add_columns. simpl. rewrite decide_False; [done|].
  unfold contains. simpl. by rewrite app_nil_r.
Qed.

Lemma add_dimension_column (c : string) (v : value F) (pos : nat) (el : Dataset F) :
  column_is c v (add_dimension c pos v true el).
Proof.
  unfold column_is. simpl. apply Forall_fmap, Forall_forall.
  intros r _. simpl. by rewrite lookup_insert_eq.
Qed.

Lemma projected_column (project : Dataset F → Dataset F) (c : string)
    (v : value F) (el : Dataset F) :
  coordinates_only project → c ∈ vdims el →
  column_is c v el → column_is c v (project el).
Proof.
  intros Hproj Hc Hcol. destruct (Hproj el) as (_ & _ & Hlen & Hrows).
  unfold column_is in *. apply Forall_lookup. intros i r' Hi.
  destruct (lookup_lt_is_Some_2 (rows el) i) as [r Hr].
  { rewrite <- Hlen. by eapply lookup_lt_Some. }
  rewrite (Hrows i r r' c Hr Hi Hc). by eapply Forall_lookup in Hcol.
Qed.

End point_table.

(** C6 (as amended).  Construct a Point-Table Annotator with
    [point_columns=['Size']] from three coordinate tuples, the key
    dimensions not being named [Size], and with a projection that rewrites
    coordinates only.  The point layer then has the single value dimension
    [Size], whose value is [None] for all three points, and the point table
    has three rows, each with [None] in its [Size] column. *)
Theorem point_init_size_column
    {F : Type} (project : Element.Dataset F → Element.Dataset F)
    (pts : list (list (value F))) (kdims : list string) :
  PointAnnotator.coordinates_only project →
  length pts = 3%nat →
  "Size" ∉ kdims →
  let self := PointAnnotator.__init__ project (Element.Points pts kdims) ["Size"] in
  Element.vdims (PointAnnotator.points self) = ["Size"] ∧
  length (Element.rows (PointAnnotator.points self)) = 3%nat ∧
  PointAnnotator.column_is "Size" VNone (PointAnnotator.points self) ∧
  Element.vdims (PointAnnotator.point_table self) = ["Size"] ∧
  length (Element.rows (PointAnnotator.point_table self)) = 3%nat ∧
  PointAnnotator.column_is "Size" VNone (PointAnnotator.point_table self).
Proof.
  intros Hproj Hlen Hnotin self. subst self. unfold PointAnnotator.__init__.
  rewrite add_size_column by done.
  cbn [PointAnnotator.points PointAnnotator.point_table].
  set (points := Element.add_dimension "Size" 0 VNone true (Element.Points pts kdims)).
  destruct (Hproj points) as (_ & Hvd & Hrows & _).
  assert (Element.vdims points = ["Size"]) as Hv by done.
  assert (length (Element.rows points) = 3%nat) as Hl
    by (simpl; by rewrite !length_fmap).
  assert (PointAnnotator.column_is "Size" VNone points) as Hcol
    by apply add_dimension_column.
  split_and!; [done|done|done|by rewrite Hvd|by rewrite Hrows|].
  apply projected_column; [done| |done]. rewrite Hv. left.
Qed.

Lemma point_init_size_column_witness :
  let self := PointAnnotator.__init__ (λ el, el)
                (Element.Points sample_points ["Longitude"; "Latitude"]) ["Size"] in
  Element.vdims (PointAnnotator.points self) = ["Size"] ∧
  length (Element.rows (PointAnnotator.points self)) = 3%nat ∧
  PointAnnotator.column_is "Size" VNone (PointAnnotator.points self) ∧
  Element.vdims (PointAnnotator.point_table self) = ["Size"] ∧
  length (Element.rows (PointAnnotator.point_table self)) = 3%nat ∧
  PointAnnotator.column_is "Size" VNone (PointAnnotator.point_table self).
Proof.
  apply (point_init_size_column (λ el, el) sample_points ["Longitude"; "Latitude"]).
  - intros el. split_and!; [done|done|done|]. by intros i r r' c -> [= ->].
  - reflexivity.
  - by compute_done.
Defined.

(** C6 as stated fails: the new [Size] column of the point layer does not
    hold 0. *)
Lemma point_init_size_is_not_zero :
  ¬ PointAnnotator.column_is "Size" (VInt 0)
      (PointAnnotator.points
         (PointAnnotator.__init__ (λ el, el)
            (Element.Points sample_points ["Longitude"; "Latitude"]) ["Size"])).
Proof.
  intros Hcol. unfold PointAnnotator.column_is in Hcol.
  apply Forall_cons in Hcol as [Hfirst _]. vm_compute in Hfirst. discriminate Hfirst.
Qed.


(** * Further properties *)

(** ** Group bookkeeping: the effect of one add *)

Section add_group_more.
Import PointWidgetAnnotator.

Implicit Types (data : gmap string (list Z)) (members sel : list Z).

(** The list of the active group grows at its end only. *)
Lemma appended_split xs : ∀ members,
  ∃ new, appended members xs = members ++ new ∧ NoDup new ∧
    ∀ idx, idx ∈ new ↔ idx ∈ xs ∧ idx ∉ members.
Proof.
  induction xs as [|x xs IH]; intros members; simpl.
  - exists []. rewrite app_nil_r. split_and!; [done|constructor|].
    intros idx. rewrite !elem_of_nil. tauto.
  - fold (appended (if decide (x ∈ members) then members else members ++ [x]) xs).
    case_decide as Hx.
    + destruct (IH members) as (new & -> & Hnd & Hnew).
      exists new. split_and!; [done|done|]. intros idx.
      rewrite Hnew, elem_of_cons. split; [tauto|].
      intros [[->|?] ?]; [done|tauto].
    + destruct (IH (members ++ [x])) as (new & -> & Hnd & Hnew).
      exists (x :: new). split_and!.
      * by rewrite <- app_assoc.
      * apply NoDup_cons. split; [|done]. rewrite Hnew, elem_of_app.
        intros [_ Hnot]. apply Hnot. right. left.
      * intros idx. rewrite !elem_of_cons, Hnew, elem_of_app, list_elem_of_singleton.
        destruct (decide (idx = x)) as [->|Hne]; [tauto|]. tauto.
Qed.

Lemma appended_absorb xs : ∀ members,
  (∀ idx, idx ∈ xs → idx ∈ members) → appended members xs = members.
Proof.
  induction xs as [|x xs IH]; intros members Hin; simpl; [done|].
  rewrite decide_True by (apply Hin; left).
  apply IH. intros idx ?. apply Hin. by right.
Qed.

Lemma filter_not_in_nil (l : list Z) : filter (λ i, i ∉ ([] : list Z)) l = l.
Proof.
  induction l as [|x l IH]; [done|].
  rewrite filter_cons, decide_True by apply not_elem_of_nil. by rewrite IH.
Qed.

(** The effect of [add_group] on the lists of the other groups, whether
    the selection is empty or not. *)
Lemma add_group_others self members :
  _group_data self !! group self = Some members →
  ∃ self', add_group self = Ok self' ∧
    point_sel_stream_index self' = point_sel_stream_index self ∧
    group self' = group self ∧
    _group_data self' !! group self
      = Some (appended members (point_sel_stream_index self)) ∧
    ∀ g, g ≠ group self →
      _group_data self' !! g
      = filter (λ i, i ∉ point_sel_stream_index self) <$> _group_data self !! g.
Proof.
  intros Hact. unfold add_group.
  destruct (add_indices_lookup (point_sel_stream_index self) (group self)
              (point_sel_stream_index self) _ _ Hact) as (data' & -> & Ha & Ho).
  simpl. eexists. split; [done|]. simpl. split_and!; [done|done|done|].
  intros g Hne. rewrite (Ho g Hne).
  destruct (point_sel_stream_index self); [|done].
  destruct (_group_data self !! g); simpl; [|done]. by rewrite filter_not_in_nil.
Qed.

End add_group_more.

(** X4.  When the active group is a key of the membership dictionary,
    [add_group] returns, and the list of the active group is its old list,
    unchanged and in the old order, followed by the selected indices that
    were not yet members, each once. *)
Theorem add_group_extends_active
    (self : PointWidgetAnnotator.t) (members : list Z) :
  PointWidgetAnnotator._group_data self !! PointWidgetAnnotator.group self
    = Some members →
  ∃ self' new,
    PointWidgetAnnotator.add_group self = Ok self' ∧
    PointWidgetAnnotator._group_data self' !! PointWidgetAnnotator.group self
      = Some (members ++ new) ∧
    NoDup new ∧
    ∀ idx, idx ∈ new
           ↔ idx ∈ PointWidgetAnnotator.point_sel_stream_index self ∧ idx ∉ members.
Proof.
  intros Hact.
  destruct (add_group_others self members Hact) as (self' & Hrun & _ & _ & Ha & _).
  destruct (appended_split (PointWidgetAnnotator.point_sel_stream_index self) members)
    as (new & Hsplit & Hnd & Hnew).
  exists self', new. rewrite <- Hsplit. done.
Qed.

Lemma add_group_extends_active_witness :
  ∃ self' new,
    PointWidgetAnnotator.add_group
      (PointWidgetAnnotator.mk ["A"; "B"] "A" [5; 7; 5]
         {[ "A" := [2; 5]; "B" := [7; 3] ]} 0) = Ok self' ∧
    PointWidgetAnnotator._group_data self' !! "A" = Some ([2; 5] ++ new) ∧
    NoDup new ∧
    ∀ idx, idx ∈ new ↔ idx ∈ [5; 7; 5] ∧ idx ∉ [2; 5].
Proof.
  apply (add_group_extends_active
           (PointWidgetAnnotator.mk ["A"; "B"] "A" [5; 7; 5]
              {[ "A" := [2; 5]; "B" := [7; 3] ]} 0) [2; 5]).
  reflexivity.
Defined.

(** X5.  When the active group is a key of the membership dictionary,
    [add_group] leaves in the list of every other group exactly the members
    that are not selected, in their old order. *)
Theorem add_group_filters_others
    (self : PointWidgetAnnotator.t) (g : string) :
  PointWidgetAnnotator.group self ∈ dom (PointWidgetAnnotator._group_data self) →
  g ≠ PointWidgetAnnotator.group self →
  ∃ self',
    PointWidgetAnnotator.add_group self = Ok self' ∧
    PointWidgetAnnotator._group_data self' !! g
    = filter (λ i, i ∉ PointWidgetAnnotator.point_sel_stream_index self)
        <$> PointWidgetAnnotator._group_data self !! g.
Proof.
  intros [members Hact]%elem_of_dom Hne.
  destruct (add_group_others self members Hact) as (self' & Hrun & _ & _ & _ & Ho).
  exists self'. split; [done|]. by apply Ho.
Qed.

Lemma add_group_filters_others_witness :
  ∃ self',
    PointWidgetAnnotator.add_group
      (PointWidgetAnnotator.mk ["A"; "B"] "A" [5; 7; 5]
         {[ "A" := [2; 5]; "B" := [7; 3] ]} 0) = Ok self' ∧
    PointWidgetAnnotator._group_data self' !! "B"
    = filter (λ i, i ∉ [5; 7; 5])
        <$> ({[ "A" := [2; 5]; "B" := [7; 3] ]} : gmap string (list Z)) !! "B".
Proof.
  refine (add_group_filters_others
            (PointWidgetAnnotator.mk ["A"; "B"] "A" [5; 7; 5]
               {[ "A" := [2; 5]; "B" := [7; 3] ]} 0) "B" _ _).
  - apply elem_of_dom. vm_compute. eauto.
  - discriminate.
Defined.

(** X6.  Pressing add a second time with the same selection and the same
    active group changes no membership list. *)
Theorem add_group_idempotent (self : PointWidgetAnnotator.t) :
  PointWidgetAnnotator.group self ∈ dom (PointWidgetAnnotator._group_data self) →
  ∃ self1 self2,
    PointWidgetAnnotator.add_group self = Ok self1 ∧
    PointWidgetAnnotator.add_group self1 = Ok self2 ∧
    PointWidgetAnnotator._group_data self2 = PointWidgetAnnotator._group_data self1.
Proof.
  intros [members Hact]%elem_of_dom.
  destruct (add_group_others self members Hact)
    as (self1 & Hrun1 & Hsel1 & Hgrp1 & Ha1 & Ho1).
  assert (PointWidgetAnnotator._group_data self1 !! PointWidgetAnnotator.group self1
          = Some (PointWidgetAnnotator.appended members
                    (PointWidgetAnnotator.point_sel_stream_index self))) as Hact1
    by (by rewrite Hgrp1).
  destruct (add_group_others self1 _ Hact1)
    as (self2 & Hrun2 & _ & _ & Ha2 & Ho2).
  exists self1, self2. split_and!; [done|done|].
  apply map_eq. intros g.
  destruct (decide (g = PointWidgetAnnotator.group self)) as [->|Hne].
  - rewrite <- Hgrp1 at 1. rewrite Ha2, Hsel1, Ha1. f_equal.
    apply appended_absorb. intros idx Hidx. apply appended_elem_of. by right.
  - rewrite Ho2 by (by rewrite Hgrp1). rewrite Hsel1, (Ho1 g Hne).
    destruct (PointWidgetAnnotator._group_data self !! g); simpl; [|done].
    by rewrite filter_filter_same.
Qed.

Lemma add_group_idempotent_witness :
  ∃ self1 self2,
    PointWidgetAnnotator.add_group
      (PointWidgetAnnotator.mk ["A"; "B"] "A" [5; 7; 5]
         {[ "A" := [2; 5]; "B" := [7; 3] ]} 0) = Ok self1 ∧
    PointWidgetAnnotator.add_group self1 = Ok self2 ∧
    PointWidgetAnnotator._group_data self2 = PointWidgetAnnotator._group_data self1.
Proof.
  apply (add_group_idempotent
           (PointWidgetAnnotator.mk ["A"; "B"] "A" [5; 7; 5]
              {[ "A" := [2; 5]; "B" := [7; 3] ]} 0)).
  apply elem_of_dom. vm_compute. eauto.
Defined.

(** X7.  [add_group] returns exactly when the selection is empty or the
    active group is a key of the membership dictionary; otherwise the
    lookup of the active group raises [KeyError]. *)
Theorem add_group_returns_iff (self : PointWidgetAnnotator.t) :
  (is_ok (PointWidgetAnnotator.add_group self)
   ↔ PointWidgetAnnotator.point_sel_stream_index self = [] ∨
     PointWidgetAnnotator.group self ∈ dom (PointWidgetAnnotator._group_data self)) ∧
  (¬ is_ok (PointWidgetAnnotator.add_group self) →
   PointWidgetAnnotator.add_group self = Raise KeyError).
Proof.
  destruct (PointWidgetAnnotator._group_data self !! PointWidgetAnnotator.group self)
    as [members|] eqn:Hact.
  - destruct (add_group_others self members Hact) as (self' & Hrun & _).
    assert (is_ok (PointWidgetAnnotator.add_group self)) as Hok by (by exists self').
    split; [|done]. split; [|done]. intros _. right. apply elem_of_dom. eauto.
  - destruct (PointWidgetAnnotator.point_sel_stream_index self) as [|idx sel] eqn:Hsel.
    + assert (is_ok (PointWidgetAnnotator.add_group self)) as Hok.
      { unfold PointWidgetAnnotator.add_group. rewrite Hsel. simpl. by eexists. }
      split; [|done]. split; [by left|done].
    + assert (PointWidgetAnnotator.add_group self = Raise KeyError) as Hraise.
      { unfold PointWidgetAnnotator.add_group. rewrite Hsel. simpl.
        unfold PointWidgetAnnotator.add_index. by rewrite Hact. }
      split; [|done]. rewrite Hraise. split.
      * by intros [? ?].
      * intros [?|Hin%elem_of_dom]; [done|]. rewrite Hact in Hin. by destruct Hin.
Qed.

(** X8.  [add_group] never drops an index from the groups: when the active
    group is a key of the dictionary, the indices that are members of some
    group afterwards are those that were members of some group before and
    the selected ones. *)
Theorem add_group_keeps_tagged (self : PointWidgetAnnotator.t) :
  PointWidgetAnnotator.group self ∈ dom (PointWidgetAnnotator._group_data self) →
  ∃ self',
    PointWidgetAnnotator.add_group self = Ok self' ∧
    ∀ idx,
      PointWidgetViews.is_tagged (PointWidgetAnnotator._group_data self') idx
      ↔ PointWidgetViews.is_tagged (PointWidgetAnnotator._group_data self) idx ∨
        idx ∈ PointWidgetAnnotator.point_sel_stream_index self.
Proof.
  intros [members Hact]%elem_of_dom.
  destruct (add_group_others self members Hact) as (self' & Hrun & _ & _ & Ha & Ho).
  exists self'. split; [done|]. intros idx. split.
  - intros (g & inds & Hg & Hin).
    destruct (decide (g = PointWidgetAnnotator.group self)) as [->|Hne].
    + rewrite Ha in Hg. injection Hg as <-.
      apply appended_elem_of in Hin as [Hin|Hin]; [left|by right].
      by exists (PointWidgetAnnotator.group self), members.
    + rewrite (Ho g Hne) in Hg.
      destruct (PointWidgetAnnotator._group_data self !! g) as [old|] eqn:Hold; [|done].
      injection Hg as <-. apply list_elem_of_filter in Hin as [_ Hin].
      left. by exists g, old.
  - intros Hcase.
    destruct (decide (idx ∈ PointWidgetAnnotator.point_sel_stream_index self))
      as [Hsel|Hnsel].
    { eexists _, _. split; [exact Ha|]. apply appended_elem_of. by right. }
    destruct Hcase as [(g & inds & Hg & Hin)|?]; [|done].
    destruct (decide (g = PointWidgetAnnotator.group self)) as [->|Hne].
    + rewrite Hact in Hg. injection Hg as <-.
      eexists _, _. split; [exact Ha|]. apply appended_elem_of. by left.
    + eexists g, _. split; [by rewrite (Ho g Hne), Hg|].
      by apply list_elem_of_filter.
Qed.

Lemma add_group_keeps_tagged_witness :
  ∃ self',
    PointWidgetAnnotator.add_group
      (PointWidgetAnnotator.mk ["A"; "B"] "A" [5; 7; 5]
         {[ "A" := [2; 5]; "B" := [7; 3] ]} 0) = Ok self' ∧
    ∀ idx,
      PointWidgetViews.is_tagged (PointWidgetAnnotator._group_data self') idx
      ↔ PointWidgetViews.is_tagged {[ "A" := [2; 5]; "B" := [7; 3] ]} idx ∨
        idx ∈ [5; 7; 5].
Proof.
  refine (add_group_keeps_tagged
            (PointWidgetAnnotator.mk ["A"; "B"] "A" [5; 7; 5]
               {[ "A" := [2; 5]; "B" := [7; 3] ]} 0) _).
  apply elem_of_dom. vm_compute. eauto.
Defined.

(** ** Point table: any list of columns *)

Section point_columns.
Import Element PointAnnotator.
Context {F : Type}.

Implicit Types (p : Dataset F) (c col : string) (r : row F).

Lemma contains_add_dimension p col (v : value F) c :
  contains (add_dimension col 0 v true p) c ↔ c = col ∨ contains p c.
Proof.
  unfold contains, add_dimension, list_insert_at. simpl.
  rewrite !elem_of_app, elem_of_cons. tauto.
Qed.

(** What lines 237-239 do: the key dimensions stay, every configured
    column becomes a dimension, and every row is rewritten by one function
    that fills the columns which were missing with [None] and keeps the
    others. *)
Lemma point_columns_rows cols : ∀ p,
  ∃ g : row F → row F,
    rows (add_columns cols p) = g <$> rows p ∧
    kdims (add_columns cols p) = kdims p ∧
    (∀ c, contains (add_columns cols p) c ↔ contains p c ∨ c ∈ cols) ∧
    ∀ c r,
      (contains p c → g r !! c = r !! c) ∧
      (¬ contains p c → c ∈ cols → g r !! c = Some VNone) ∧
      (¬ contains p c → c ∉ cols → g r !! c = r !! c).
Proof.
  unfold add_columns.
  induction cols as [|col cols IH]; intros p; simpl.
  - exists id. split_and!; [by rewrite list_fmap_id|done| |].
    + intros c. rewrite elem_of_nil. tauto.
    + intros c r. split_and!; [done| |done]. by intros _ ?%elem_of_nil.
  - case_decide as Hin.
    + destruct (IH p) as (g & Hrows & Hkd & Hdims & Hg).
      exists g. split_and!; [done|done| |].
      * intros c. rewrite Hdims, elem_of_cons. split; [tauto|].
        intros [?|[->|?]]; tauto.
      * intros c r. destruct (Hg c r) as (H1 & H2 & H3). split_and!; [done| |].
        -- intros Hc [->|?]%elem_of_cons; [done|]. by apply H2.
        -- intros Hc Hnot. apply H3; [done|]. intros ?. apply Hnot. by right.
    + destruct (IH (add_dimension col 0 VNone true p)) as (g & Hrows & Hkd & Hdims & Hg).
      exists (λ r, g (<[col := VNone]> r)). split_and!.
      * rewrite Hrows. simpl. by rewrite <- list_fmap_compose.
      * by rewrite Hkd.
      * intros c. rewrite Hdims, contains_add_dimension, elem_of_cons. tauto.
      * intros c r. destruct (Hg c (<[col := VNone]> r)) as (H1 & H2 & H3).
        rewrite contains_add_dimension in H1, H2, H3.
        destruct (decide (c = col)) as [->|Hne].
        -- split_and!; [done| |by intros _ []; left].
           intros _ _. rewrite H1 by (by left). by rewrite lookup_insert_eq.
        -- split_and!.
           ++ intros Hc. rewrite H1 by (by right). by rewrite lookup_insert_ne.
           ++ intros Hc [?|Hcols]%elem_of_cons; [done|]. apply H2; [tauto|done].
           ++ intros Hc Hnot. rewrite H3; [by rewrite lookup_insert_ne|tauto|].
              intros ?. apply Hnot. by right.
Qed.

Lemma filter_ext_in {A : Type} (P Q : A → Prop) `{∀ x, Decision (P x)}
    `{∀ x, Decision (Q x)} (l : list A) :
  (∀ x, x ∈ l → P x ↔ Q x) → filter P l = filter Q l.
Proof.
  induction l as [|x l IH]; intros Hext; [done|].
  rewrite !filter_cons. rewrite IH by (intros y ?; apply Hext; by right).
  destruct (decide (P x)) as [HP|HP], (decide (Q x)) as [HQ|HQ]; try done.
  - destruct HQ. apply Hext; [left|done].
  - destruct HP. apply Hext; [left|done].
Qed.

Lemma point_columns_vdims cols : ∀ p,
  NoDup cols →
  vdims (add_columns cols p)
  = reverse (filter (λ c, ¬ contains p c) cols) ++ vdims p.
Proof.
  unfold add_columns.
  induction cols as [|col cols IH]; intros p Hnd; simpl; [done|].
  apply NoDup_cons in Hnd as [Hnotin Hnd].
  rewrite filter_cons. case_decide as Hin.
  - rewrite decide_False by tauto. by apply IH.
  - rewrite decide_True by done. rewrite IH by done.
    rewrite reverse_cons, <- app_assoc. simpl.
    unfold list_insert_at. rewrite take_0, drop_0. simpl. do 2 f_equal.
    apply filter_ext_in. intros c Hc. rewrite contains_add_dimension.
    split; [tauto|]. intros Hnc [->|?]; done.
Qed.

End point_columns.

(** X9.  For every point layer and every list of point columns, the
    constructor keeps the key dimensions and the number of points, makes
    every configured column a dimension of the layer, keeps in every row
    the values of the columns that were dimensions already, and puts
    [None] in the configured columns that were not. *)
Theorem point_init_columns
    {F : Type} (project : Element.Dataset F → Element.Dataset F)
    (points : Element.Dataset F) (point_columns : list string) :
  let self := PointAnnotator.__init__ project points point_columns in
  Element.kdims (PointAnnotator.points self) = Element.kdims points ∧
  length (Element.rows (PointAnnotator.points self)) = length (Element.rows points) ∧
  (∀ c, c ∈ point_columns → Element.contains (PointAnnotator.points self) c) ∧
  ∀ i r, Element.rows points !! i = Some r →
    ∃ r', Element.rows (PointAnnotator.points self) !! i = Some r' ∧
      ∀ c, (Element.contains points c → r' !! c = r !! c) ∧
           (c ∈ point_columns → ¬ Element.contains points c → r' !! c = Some VNone).
Proof.
  intros self. subst self. unfold PointAnnotator.__init__.
  cbn [PointAnnotator.points].
  destruct (point_columns_rows point_columns points) as (g & Hrows & Hkd & Hdims & Hg).
  split_and!; [done|by rewrite Hrows, length_fmap| |].
  - intros c Hc. apply Hdims. by right.
  - intros i r Hi. exists (g r). split.
    + by rewrite Hrows, list_lookup_fmap, Hi.
    + intros c. destruct (Hg c r) as (H1 & H2 & _). split; [done|]. intros ??. by apply H2.
Qed.

(** X10.  The value dimensions of the point layer after construction are
    the configured columns that were not dimensions yet, the last
    configured first, followed by the old value dimensions (for a list of
    distinct column names). *)
Theorem point_init_column_order
    {F : Type} (project : Element.Dataset F → Element.Dataset F)
    (points : Element.Dataset F) (point_columns : list string) :
  NoDup point_columns →
  Element.vdims (PointAnnotator.points
                   (PointAnnotator.__init__ project points point_columns))
  = reverse (filter (λ c, ¬ Element.contains points c) point_columns)
    ++ Element.vdims points.
Proof. intros Hnd. unfold PointAnnotator.__init__. simpl. by apply point_columns_vdims. Qed.

Lemma point_init_column_order_witness :
  Element.vdims (PointAnnotator.points
                   (PointAnnotator.__init__ (λ el, el)
                      (Element.Points sample_points ["Longitude"; "Latitude"])
                      ["Size"; "Latitude"; "Depth"]))
  = reverse (filter (λ c, ¬ Element.contains
                              (Element.Points sample_points ["Longitude"; "Latitude"]) c)
               ["Size"; "Latitude"; "Depth"])
    ++ [].
Proof.
  apply (point_init_column_order (λ el, el)
           (Element.Points sample_points ["Longitude"; "Latitude"])
           ["Size"; "Latitude"; "Depth"]).
  repeat (apply NoDup_cons; split; [by compute_done|]). apply NoDup_nil_2.
Defined.

(** ** Polygon table: the layer and the table after construction *)

Section poly_columns.
Import Element PolyAnnotator.
Context {F : Type} `{EqDecision F}.

Implicit Types (p : Path F) (c col : string) (r : row F).

Lemma path_contains_add_dimension p col (v : value F) c :
  path_contains (path_add_dimension col 0 v true p) c ↔ c = col ∨ path_contains p c.
Proof.
  unfold path_contains, path_add_dimension, list_insert_at. simpl.
  rewrite !elem_of_app, elem_of_cons. tauto.
Qed.

(** What lines 198-200 do: the key dimensions stay, every configured
    column becomes a dimension, and every vertex row is rewritten by one
    function that fills the columns which were missing with the empty
    string and keeps the others. *)
Lemma poly_columns_rows cols : ∀ p,
  ∃ g : row F → row F,
    shapes (add_columns cols p)
      = (λ shape : list (row F), g <$> shape) <$> shapes p ∧
    path_kdims (add_columns cols p) = path_kdims p ∧
    (∀ c, path_contains (add_columns cols p) c ↔ path_contains p c ∨ c ∈ cols) ∧
    ∀ c r,
      (path_contains p c → g r !! c = r !! c) ∧
      (¬ path_contains p c → c ∈ cols → g r !! c = Some (VStr "")) ∧
      (¬ path_contains p c → c ∉ cols → g r !! c = r !! c).
Proof.
  unfold add_columns.
  induction cols as [|col cols IH]; intros p; simpl.
  - exists id. split_and!; [|done| |].
    + rewrite <- (list_fmap_id (shapes p)) at 1.
      apply list_fmap_ext. intros _ shape _. by rewrite list_fmap_id.
    + intros c. rewrite elem_of_nil. tauto.
    + intros c r. split_and!; [done| |done]. by intros _ ?%elem_of_nil.
  - case_decide as Hin.
    + destruct (IH p) as (g & Hrows & Hkd & Hdims & Hg).
      exists g. split_and!; [done|done| |].
      * intros c. rewrite Hdims, elem_of_cons. split; [tauto|].
        intros [?|[->|?]]; tauto.
      * intros c r. destruct (Hg c r) as (H1 & H2 & H3). split_and!; [done| |].
        -- intros Hc [->|?]%elem_of_cons; [done|]. by apply H2.
        -- intros Hc Hnot. apply H3; [done|]. intros ?. apply Hnot. by right.
    + destruct (IH (path_add_dimension col 0 (VStr "") true p))
        as (g & Hrows & Hkd & Hdims & Hg).
      exists (λ r, g (<[col := VStr ""]> r)). split_and!.
      * rewrite Hrows. simpl. rewrite <- list_fmap_compose.
        apply list_fmap_ext. intros _ shape _. simpl.
        by rewrite <- list_fmap_compose.
      * by rewrite Hkd.
      * intros c. rewrite Hdims, path_contains_add_dimension, elem_of_cons. tauto.
      * intros c r. destruct (Hg c (<[col := VStr ""]> r)) as (H1 & H2 & H3).
        rewrite path_contains_add_dimension in H1, H2, H3.
        destruct (decide (c = col)) as [->|Hne].
        -- split_and!; [done| |by intros _ []; left].
           intros _ _. rewrite H1 by (by left). by rewrite lookup_insert_eq.
        -- split_and!.
           ++ intros Hc. rewrite H1 by (by right). by rewrite lookup_insert_ne.
           ++ intros Hc [?|Hcols]%elem_of_cons; [done|]. apply H2; [tauto|done].
           ++ intros Hc Hnot. rewrite H3; [by rewrite lookup_insert_ne|tauto|].
              intros ?. apply Hnot. by right.
Qed.

Lemma init_ok (stream : Path F → result unit) (polys : Path F) cols vcols
    (self : PolyAnnotator.t F) :
  __init__ stream polys cols vcols = Ok self →
  PolyAnnotator.polys self = add_columns cols polys ∧
  poly_table self = poly_data cols (add_columns cols polys) ∧
  vertex_table self = mkDataset (path_kdims (add_columns cols polys)) vcols [] ∧
  size (lengths (poly_data cols (add_columns cols polys))) = 1%nat.
Proof.
  unfold __init__. destruct (stream (add_columns cols polys)); simpl; [|done].
  case_decide as Hsize; [done|]. intros [= <-]. simpl.
  split_and!; [done|done|done|].
  destruct (decide (size (lengths (poly_data cols (add_columns cols polys))) = 1%nat));
    [done|by destruct Hsize].
Qed.

Lemma poly_data_lookup cols p c :
  poly_data cols p !! c
  = if decide (c ∈ cols) then Some (dimension_values c p) else None.
Proof.
  unfold poly_data.
  by rewrite (comprehension_lookup (λ c, dimension_values c p) cols ∅ c), lookup_empty.
Qed.

Lemma unique_replicate (v : value F) (n : nat) :
  unique (replicate (S n) v) = [v].
Proof.
  simpl. f_equal.
  assert (∀ l : list (value F), (∀ x, x ∈ l → x = v) → filter (λ w, w ≠ v) l = [])
    as Hnone.
  { induction l as [|x l IH]; intros Hall; [done|].
    rewrite filter_cons, decide_False by (intros Hx; apply Hx, Hall; left).
    apply IH. intros y ?. apply Hall. by right. }
  apply Hnone. intros x Hx. apply (proj1 (elem_of_unique _ _)) in Hx.
  by apply elem_of_replicate in Hx as [? _].
Qed.

(** The distinct values of a column filled with one value. *)
Lemma distinct_filled c (v : value F) (shape : list (row F)) :
  (∀ r, r ∈ shape → r !! c = Some v) →
  distinct c shape = if shape is [] then [] else [v].
Proof.
  intros Hfill. unfold distinct, column.
  assert ((λ r : row F, default VNone (r !! c)) <$> shape
          = replicate (length shape) v) as ->.
  { induction shape as [|r shape IH]; [done|]. simpl.
    rewrite (Hfill r) by left. simpl. f_equal.
    apply IH. intros r' ?. apply Hfill. by right. }
  destruct shape as [|r shape]; [done|]. apply unique_replicate.
Qed.

(** The values of a column that [add_columns] fills with one value: one
    per shape that has a vertex. *)
Lemma dimension_values_filled c (v : value F) (g : row F → row F)
    (shs : list (list (row F))) kd vd :
  (∀ r, g r !! c = Some v) →
  dimension_values c
    (mkPath kd vd ((λ shape : list (row F), g <$> shape) <$> shs))
  = replicate (length (filter (λ shape, (0 < length shape)%nat) shs)) v.
Proof.
  intros Hg. unfold dimension_values. simpl.
  induction shs as [|shape shs IH]; [done|].
  rewrite fmap_cons, bind_cons, IH, filter_cons.
  rewrite (distinct_filled c v (g <$> shape)).
  - destruct shape as [|r shape]; [done|].
    rewrite decide_True by (simpl; lia). done.
  - intros r' (r & -> & _)%list_elem_of_fmap. apply Hg.
Qed.

End poly_columns.

(** X11.  When the constructor of the Polygon-Table Annotator returns, its
    polygon layer has the key dimensions, the shapes and the vertices of
    the given one, every configured per-shape column is a dimension of it,
    every vertex keeps its values in the columns that were dimensions
    already and has the empty string in the configured columns that were
    not. *)
Theorem poly_init_layer
    {F : Type} `{EqDecision F} (stream_event : Element.Path F → result unit)
    (polys : Element.Path F)
    (poly_columns vertex_columns : list string) (self : PolyAnnotator.t F) :
  PolyAnnotator.__init__ stream_event polys poly_columns vertex_columns = Ok self →
  Element.path_kdims (PolyAnnotator.polys self) = Element.path_kdims polys ∧
  length (Element.shapes (PolyAnnotator.polys self)) = length (Element.shapes polys) ∧
  (∀ c, c ∈ poly_columns → Element.path_contains (PolyAnnotator.polys self) c) ∧
  ∀ i shape, Element.shapes polys !! i = Some shape →
    ∃ shape', Element.shapes (PolyAnnotator.polys self) !! i = Some shape' ∧
      length shape' = length shape ∧
      ∀ j r, shape !! j = Some r →
        ∃ r', shape' !! j = Some r' ∧
          ∀ c, (Element.path_contains polys c → r' !! c = r !! c) ∧
               (c ∈ poly_columns → ¬ Element.path_contains polys c →
                r' !! c = Some (VStr "")).
Proof.
  intros (-> & _)%init_ok.
  destruct (poly_columns_rows poly_columns polys) as (g & Hrows & Hkd & Hdims & Hg).
  split_and!; [done|by rewrite Hrows, length_fmap| |].
  - intros c Hc. apply Hdims. by right.
  - intros i shape Hi. exists (g <$> shape). split_and!.
    + by rewrite Hrows, list_lookup_fmap, Hi.
    + by rewrite length_fmap.
    + intros j r Hj. exists (g r). split; [by rewrite list_lookup_fmap, Hj|].
      intros c. destruct (Hg c r) as (H1 & H2 & _). split; [done|].
      intros ??. by apply H2.
Qed.

Lemma poly_init_layer_witness :
  Element.path_kdims (PolyAnnotator.add_columns ["Depth"] sample_polys)
    = Element.path_kdims sample_polys ∧
  length (Element.shapes (PolyAnnotator.add_columns ["Depth"] sample_polys))
    = length (Element.shapes sample_polys) ∧
  (∀ c, c ∈ ["Depth"] →
        Element.path_contains (PolyAnnotator.add_columns ["Depth"] sample_polys) c) ∧
  ∀ i shape, Element.shapes sample_polys !! i = Some shape →
    ∃ shape',
      Element.shapes (PolyAnnotator.add_columns ["Depth"] sample_polys) !! i
        = Some shape' ∧
      length shape' = length shape ∧
      ∀ j r, shape !! j = Some r →
        ∃ r', shape' !! j = Some r' ∧
          ∀ c, (Element.path_contains sample_polys c → r' !! c = r !! c) ∧
               (c ∈ ["Depth"] → ¬ Element.path_contains sample_polys c →
                r' !! c = Some (VStr "")).
Proof.
  exact (poly_init_layer (λ _, Ok ()) sample_polys ["Depth"] []
           (PolyAnnotator.mk
              (PolyAnnotator.add_columns ["Depth"] sample_polys) ["Depth"] []
              (PolyAnnotator.poly_data ["Depth"]
                 (PolyAnnotator.add_columns ["Depth"] sample_polys))
              (Element.mkDataset
                 (Element.path_kdims (PolyAnnotator.add_columns ["Depth"] sample_polys))
                 [] []))
           eq_refl).
Defined.

(** X12.  When the constructor of the Polygon-Table Annotator returns, the
    per-shape table has exactly the configured columns and all its columns
    have the same length. *)
Theorem poly_init_table
    {F : Type} `{EqDecision F} (stream_event : Element.Path F → result unit)
    (polys : Element.Path F)
    (poly_columns vertex_columns : list string) (self : PolyAnnotator.t F) :
  PolyAnnotator.__init__ stream_event polys poly_columns vertex_columns = Ok self →
  dom (PolyAnnotator.poly_table self) = list_to_set poly_columns ∧
  ∀ c1 c2 v1 v2,
    PolyAnnotator.poly_table self !! c1 = Some v1 →
    PolyAnnotator.poly_table self !! c2 = Some v2 →
    length v1 = length v2.
Proof.
  intros (_ & -> & _ & Hsize)%init_ok. split.
  - apply set_eq. intros c.
    rewrite elem_of_dom, poly_data_lookup, elem_of_list_to_set.
    case_decide; split; eauto; [by intros [? ?]|done].
  - intros c1 c2 v1 v2. rewrite !poly_data_lookup.
    case_decide; [|done]. case_decide; [|done]. intros [= <-] [= <-].
    apply (size_singleton_inv _ _ _ Hsize); apply lengths_elem_of; eauto.
Qed.

Lemma poly_init_table_witness :
  dom (PolyAnnotator.poly_data ["Depth"; "Name"]
         (PolyAnnotator.add_columns ["Depth"; "Name"] sample_polys))
    = list_to_set ["Depth"; "Name"] ∧
  ∀ c1 c2 v1 v2,
    PolyAnnotator.poly_data ["Depth"; "Name"]
      (PolyAnnotator.add_columns ["Depth"; "Name"] sample_polys) !! c1 = Some v1 →
    PolyAnnotator.poly_data ["Depth"; "Name"]
      (PolyAnnotator.add_columns ["Depth"; "Name"] sample_polys) !! c2 = Some v2 →
    length v1 = length v2.
Proof.
  exact (poly_init_table (λ _, Ok ()) sample_polys ["Depth"; "Name"] []
           (PolyAnnotator.mk
              (PolyAnnotator.add_columns ["Depth"; "Name"] sample_polys)
              ["Depth"; "Name"] []
              (PolyAnnotator.poly_data ["Depth"; "Name"]
                 (PolyAnnotator.add_columns ["Depth"; "Name"] sample_polys))
              (Element.mkDataset
                 (Element.path_kdims
                    (PolyAnnotator.add_columns ["Depth"; "Name"] sample_polys))
                 [] []))
           eq_refl).
Defined.

(** X13.  When at least one per-shape column is configured, none of the
    configured columns is a dimension of the given polygons, every shape
    has a vertex and the stream step of lines 203-206 passes, the
    constructor returns, and every column of the per-shape table holds one
    empty string for each shape. *)
Theorem poly_init_fresh_columns
    {F : Type} `{EqDecision F} (stream_event : Element.Path F → result unit)
    (polys : Element.Path F) (poly_columns vertex_columns : list string) :
  poly_columns ≠ [] →
  (∀ c, c ∈ poly_columns → ¬ Element.path_contains polys c) →
  (∀ shape, shape ∈ Element.shapes polys → shape ≠ []) →
  is_ok (stream_event (PolyAnnotator.add_columns poly_columns polys)) →
  ∃ self,
    PolyAnnotator.__init__ stream_event polys poly_columns vertex_columns = Ok self ∧
    ∀ c, c ∈ poly_columns →
      PolyAnnotator.poly_table self !! c
      = Some (replicate (length (Element.shapes polys)) (VStr "")).
Proof.
  intros Hne Hfresh Hvertex Hstream.
  destruct (poly_columns_rows poly_columns polys) as (g & Hrows & _ & _ & Hg).
  assert (Hall : ∀ shs : list (list (Element.row F)),
            (∀ shape, shape ∈ shs → shape ≠ []) →
            length (filter (λ shape, (0 < length shape)%nat) shs) = length shs).
  { induction shs as [|shape shs IH]; intros Hshs; [done|].
    rewrite filter_cons, decide_True.
    - simpl. f_equal. apply IH. intros ??. apply Hshs. by right.
    - destruct shape; [|simpl; lia]. by destruct (Hshs []); [left|]. }
  assert (Hvalues : ∀ c, c ∈ poly_columns →
    Element.dimension_values c (PolyAnnotator.add_columns poly_columns polys)
    = replicate (length (Element.shapes polys)) (VStr "")).
  { intros c Hc. rewrite <- (Hall _ Hvertex).
    destruct (PolyAnnotator.add_columns poly_columns polys) as [kd vd shs] eqn:Hext.
    simpl in Hrows. subst shs. apply dimension_values_filled.
    intros r. destruct (Hg c r) as (_ & H2 & _). apply H2; [by apply Hfresh|done]. }
  destruct (init_cases stream_event polys poly_columns vertex_columns Hstream)
    as [Hraise|[self Hok]].
  - exfalso. apply init_raises in Hraise; [|done].
    apply lengths_differ in Hraise as (c1 & c2 & Hc1 & Hc2 & Hdiff); [|done].
    apply Hdiff. unfold PolyAnnotator.distinct_count. by rewrite !Hvalues.
  - exists self. split; [done|]. intros c Hc.
    apply init_ok in Hok as (_ & -> & _).
    by rewrite poly_data_lookup, decide_True, Hvalues.
Qed.

Lemma poly_init_fresh_columns_witness :
  ∃ self,
    PolyAnnotator.__init__ (λ _, Ok ()) sample_polys ["Depth"; "Name"] [] = Ok self ∧
    ∀ c, c ∈ ["Depth"; "Name"] →
      PolyAnnotator.poly_table self !! c
      = Some (replicate (length (Element.shapes sample_polys)) (VStr "")).
Proof.
  apply (poly_init_fresh_columns (λ _, Ok ()) sample_polys ["Depth"; "Name"] []).
  - discriminate.
  - intros c Hc. by repeat (apply elem_of_cons in Hc as [->|Hc];
      [by compute_done|]); apply elem_of_nil in Hc.
  - intros shape Hshape. apply list_elem_of_singleton in Hshape as ->. discriminate.
  - by eexists.
Defined.

(** X20.  With at least one per-shape column configured and the stream
    step of lines 203-206 passing, the constructor raises the validation
    error exactly when two configured columns differ in their number of
    distinct values, counted within each shape and summed over the shapes.
    When it raises, some configured column has more than one distinct
    value among the vertices of some shape; when no configured column has,
    it returns. *)
Theorem poly_init_raises_on_differing_counts
    {F : Type} `{EqDecision F} (stream_event : Element.Path F → result unit)
    (polys : Element.Path F) (poly_columns vertex_columns : list string) :
  poly_columns ≠ [] →
  is_ok (stream_event (PolyAnnotator.add_columns poly_columns polys)) →
  (PolyAnnotator.__init__ stream_event polys poly_columns vertex_columns
     = Raise ValueError
   ↔ ∃ c1 c2, c1 ∈ poly_columns ∧ c2 ∈ poly_columns ∧
       length (Element.dimension_values c1
                 (PolyAnnotator.add_columns poly_columns polys))
       ≠ length (Element.dimension_values c2
                   (PolyAnnotator.add_columns poly_columns polys))) ∧
  (PolyAnnotator.__init__ stream_event polys poly_columns vertex_columns
     = Raise ValueError →
   ∃ c, c ∈ poly_columns ∧ PolyAnnotator.varies polys c) ∧
  ((∀ c, c ∈ poly_columns → ¬ PolyAnnotator.varies polys c) →
   is_ok (PolyAnnotator.__init__ stream_event polys poly_columns vertex_columns)).
Proof.
  intros Hne Hstream.
  set (ext := PolyAnnotator.add_columns poly_columns polys) in *.
  assert (Hiff : PolyAnnotator.__init__ stream_event polys poly_columns vertex_columns
                 = Raise ValueError
     ↔ ∃ c1 c2, c1 ∈ poly_columns ∧ c2 ∈ poly_columns ∧
         PolyAnnotator.distinct_count ext c1 ≠ PolyAnnotator.distinct_count ext c2).
  { rewrite init_raises by done. by apply lengths_differ. }
  assert (Hvaries : PolyAnnotator.__init__ stream_event polys poly_columns vertex_columns
                    = Raise ValueError →
                    ∃ c, c ∈ poly_columns ∧ PolyAnnotator.varies polys c).
  { intros (c1 & c2 & Hc1 & Hc2 & Hdiff)%Hiff.
    destruct (decide (PolyAnnotator.varies ext c1)) as [Hv1|Hn1].
    { exists c1. split; [done|]. by eapply add_columns_varies. }
    destruct (decide (PolyAnnotator.varies ext c2)) as [Hv2|Hn2].
    { exists c2. split; [done|]. by eapply add_columns_varies. }
    destruct Hdiff. by apply nonvarying_same_count. }
  split_and!; [exact Hiff|done|].
  intros Hconst.
  destruct (init_cases stream_event polys poly_columns vertex_columns Hstream)
    as [Hraise|Hok]; [|done].
  destruct (Hvaries Hraise) as (c & Hc & Hv). by destruct (Hconst c Hc).
Qed.

Lemma poly_init_raises_on_differing_counts_witness :
  (PolyAnnotator.__init__ (λ _, Ok ()) sample_polys ["Group"; "Depth"] []
     = Raise ValueError
   ↔ ∃ c1 c2, c1 ∈ ["Group"; "Depth"] ∧ c2 ∈ ["Group"; "Depth"] ∧
       length (Element.dimension_values c1
                 (PolyAnnotator.add_columns ["Group"; "Depth"] sample_polys))
       ≠ length (Element.dimension_values c2
                   (PolyAnnotator.add_columns ["Group"; "Depth"] sample_polys))) ∧
  (PolyAnnotator.__init__ (λ _, Ok ()) sample_polys ["Group"; "Depth"] []
     = Raise ValueError →
   ∃ c, c ∈ ["Group"; "Depth"] ∧ PolyAnnotator.varies sample_polys c) ∧
  ((∀ c, c ∈ ["Group"; "Depth"] → ¬ PolyAnnotator.varies sample_polys c) →
   is_ok (PolyAnnotator.__init__ (λ _, Ok ()) sample_polys ["Group"; "Depth"] [])).
Proof.
  apply (poly_init_raises_on_differing_counts (λ _, Ok ()) sample_polys
           ["Group"; "Depth"] []).
  - discriminate.
  - by eexists.
Defined.

(** ** Tool initializer *)

Section tools.
Import Tools.

Implicit Types (models : list tool) (t : tool) (ty : tool_type).

Lemma select_from_head ty models : ∀ pos,
  match head (select_from ty pos models) with
  | None => ∀ j t, models !! j = Some t → type_of t ≠ ty
  | Some i =>
      ∃ k t, i = (pos + k)%nat ∧ models !! k = Some t ∧ type_of t = ty ∧
             ∀ j t', (j < k)%nat → models !! j = Some t' → type_of t' ≠ ty
  end.
Proof.
  induction models as [|t0 models IH]; intros pos; simpl; [done|].
  case_decide as Hty; simpl.
  - exists 0%nat, t0. split_and!; [lia|done|done|]. intros j t' Hj. lia.
  - specialize (IH (S pos)).
    destruct (head (select_from ty (S pos) models)) as [i|].
    + destruct IH as (k & t & -> & Hk & Ht & Hmin).
      exists (S k), t. split_and!; [lia|done|done|].
      intros [|j] t' Hj; simpl; [by intros [= <-]|]. apply Hmin. lia.
    + intros [|j] t; simpl; [by intros [= <-]|]. apply IH.
Qed.

(** [select(...)[0]] is the first model of the type. *)
Lemma select_first ty models i t :
  models !! i = Some t →
  head (select ty models) = Some i
  ↔ type_of t = ty ∧ first_of_its_type models i.
Proof.
  intros Hi. unfold select. pose proof (select_from_head ty models 0%nat) as Hhead.
  destruct (head (select_from ty 0 models)) as [i'|].
  - destruct Hhead as (k & t' & -> & Hk & Ht' & Hmin). simpl. split.
    + intros [= ->]. rewrite Hi in Hk. injection Hk as <-. split; [done|].
      intros j t1 t2 Hj Hj1 Hj2. rewrite Hi in Hj2. injection Hj2 as <-.
      rewrite Ht'. by eapply Hmin.
    + intros [Hty Hfirst]. f_equal.
      destruct (Nat.lt_trichotomy k i) as [Hlt|[->|Hgt]]; [|done|].
      * destruct (Hfirst k t' t Hlt Hk Hi). congruence.
      * by destruct (Hmin i t Hgt Hi).
  - split; [done|]. intros [Hty _]. by destruct (Hhead i t Hi).
Qed.

Lemma register_lookup found cds models i :
  register found cds models !! i
  = if decide (head found = Some i) then append_source cds <$> models !! i
    else models !! i.
Proof.
  unfold register. destruct found as [|first found]; simpl; [done|].
  case_decide as Hfirst.
  - injection Hfirst as ->. apply list_lookup_alter_eq.
  - apply list_lookup_alter_ne. congruence.
Qed.

Lemma register_length found cds models :
  length (register found cds models) = length models.
Proof. unfold register. destruct found; [done|]. apply length_alter. Qed.

End tools.

(** X14.  For a plot with a [source] handle, the tool initializer returns
    and keeps the handles, the number of models and the type of each; it
    appends the data source to the sources of the first checkpoint tool,
    of the first restore tool and of the first clear tool, and leaves every
    other model as it was. *)
Theorem initialize_tools_registers (p : Tools.plot) (cds : nat) :
  Tools.handles p !! "source" = Some cds →
  ∃ p',
    Tools.initialize_tools p = Ok p' ∧
    Tools.handles p' = Tools.handles p ∧
    length (Tools.state p') = length (Tools.state p) ∧
    ∀ i t, Tools.state p !! i = Some t →
      (Tools.type_of t ≠ Tools.OtherTool →
       Tools.first_of_its_type (Tools.state p) i →
       Tools.state p' !! i
       = Some (Tools.mkTool (Tools.type_of t) (Tools.sources t ++ [cds]))) ∧
      (Tools.type_of t = Tools.OtherTool ∨
         ¬ Tools.first_of_its_type (Tools.state p) i →
       Tools.state p' !! i = Some t).
Proof.
  intros Hsrc. unfold Tools.initialize_tools. rewrite Hsrc.
  eexists. split; [done|]. simpl. split_and!; [done|by rewrite !register_length|].
  intros i t Hi. rewrite !register_lookup, Hi.
  pose proof (select_first Tools.CheckpointTool _ i t Hi) as Hcp.
  pose proof (select_first Tools.RestoreTool _ i t Hi) as Hrs.
  pose proof (select_first Tools.ClearTool _ i t Hi) as Hcl.
  split.
  - intros Hother Hfirst.
    repeat case_decide; simpl;
      repeat match goal with
      | H : head _ = Some _ |- _ =>
          first [apply Hcp in H | apply Hrs in H | apply Hcl in H];
          destruct H as [? _]
      | H : head _ ≠ Some _ |- _ =>
          first [rewrite Hcp in H | rewrite Hrs in H | rewrite Hcl in H]
      end;
      try congruence; try reflexivity.
    destruct (Tools.type_of t); tauto.
  - intros Hcase.
    repeat case_decide; simpl; try done; exfalso;
      repeat match goal with
      | H : head _ = Some _ |- _ =>
          first [apply Hcp in H | apply Hrs in H | apply Hcl in H];
          destruct H as [? ?]
      end;
      destruct Hcase; congruence.
Qed.

Lemma initialize_tools_registers_witness :
  ∃ p',
    Tools.initialize_tools sample_plot = Ok p' ∧
    Tools.handles p' = Tools.handles sample_plot ∧
    length (Tools.state p') = length (Tools.state sample_plot) ∧
    ∀ i t, Tools.state sample_plot !! i = Some t →
      (Tools.type_of t ≠ Tools.OtherTool →
       Tools.first_of_its_type (Tools.state sample_plot) i →
       Tools.state p' !! i
       = Some (Tools.mkTool (Tools.type_of t) (Tools.sources t ++ [7%nat]))) ∧
      (Tools.type_of t = Tools.OtherTool ∨
         ¬ Tools.first_of_its_type (Tools.state sample_plot) i →
       Tools.state p' !! i = Some t).
Proof.
  apply (initialize_tools_registers sample_plot 7%nat). reflexivity.
Defined.

(** ** Membership table *)

(** X15.  The membership table has exactly one row per group of the
    membership dictionary, the row of a group showing its label and the
    text of its list of indices, and the rows are in strictly ascending
    order of label. *)
Theorem group_table_rows (self : PointWidgetAnnotator.t) :
  StronglySorted GeoAnnotator.key_lt (PointWidgetViews.group_table self) ∧
  length (PointWidgetViews.group_table self)
    = size (PointWidgetAnnotator._group_data self) ∧
  ∀ g s, (g, s) ∈ PointWidgetViews.group_table self
         ↔ ∃ inds, PointWidgetAnnotator._group_data self !! g = Some inds ∧
                   s = PointWidgetViews.str_list inds.
Proof.
  unfold PointWidgetViews.group_table.
  set (data := (λ item : string * list Z, (item.1, PointWidgetViews.str_list item.2))
                 <$> map_to_list (PointWidgetAnnotator._group_data self)).
  assert (data.*1 = (map_to_list (PointWidgetAnnotator._group_data self)).*1) as Hkeys.
  { unfold data. rewrite <- list_fmap_compose. by apply list_fmap_ext. }
  split_and!.
  - apply sorted_strictly.
    + rewrite merge_sort_Permutation, Hkeys. apply NoDup_fst_map_to_list.
    + apply StronglySorted_merge_sort; apply _.
  - rewrite merge_sort_Permutation. unfold data.
    by rewrite length_fmap, length_map_to_list.
  - intros g s. rewrite merge_sort_Permutation. unfold data.
    rewrite list_elem_of_fmap. split.
    + intros ([g' inds] & [= -> ->] & Hin%elem_of_map_to_list). eauto.
    + intros (inds & Hg & ->). exists (g, inds). split; [done|].
      by apply elem_of_map_to_list.
Qed.

(** The labels of the membership table are the keys of the dictionary. *)
Lemma group_table_keys (self : PointWidgetAnnotator.t) (g : string) :
  g ∈ (PointWidgetViews.group_table self).*1
  ↔ is_Some (PointWidgetAnnotator._group_data self !! g).
Proof.
  unfold PointWidgetViews.group_table.
  rewrite merge_sort_Permutation, <- list_fmap_compose, list_elem_of_fmap. split.
  - intros ([g' inds] & -> & Hin%elem_of_map_to_list). simpl. eauto.
  - intros [inds Hg]. exists (g, inds). split; [done|]. by apply elem_of_map_to_list.
Qed.

(** X16.  After construction and any sequence of add actions with active
    groups among the configured ones, the labels of the membership table
    are exactly the configured labels. *)
Theorem group_table_labels
    (groups : list string) (self0 : PointWidgetAnnotator.t)
    (acts : list PointWidgetAnnotator.action) :
  PointWidgetAnnotator.__init__ groups = Ok self0 →
  Forall (λ a, PointWidgetAnnotator.active a ∈ groups) acts →
  ∃ states, PointWidgetAnnotator.run self0 acts = Ok states ∧
    Forall (λ self, ∀ g, g ∈ (PointWidgetViews.group_table self).*1 ↔ g ∈ groups)
           states.
Proof.
  intros Hinit Hacts.
  destruct (init_inv _ _ Hinit) as (_ & _ & Hdom & _ & Hex).
  destruct (run_invariant (list_to_set groups) acts self0 Hdom Hex)
    as (states & Hrun & _ & Hall).
  { eapply Forall_impl; [done|]. intros a Ha. by apply elem_of_list_to_set. }
  exists states. split; [done|].
  eapply Forall_impl; [done|]. intros self [Hd _] g. simpl.
  destruct (group_table_keys self g) as [H1 H2].
  rewrite <- (elem_of_list_to_set (C := gset string) g groups), <- Hd, elem_of_dom.
  split; [intros ?%H1|intros ?%H2]; done.
Qed.

Lemma group_table_labels_witness :
  ∃ states,
    PointWidgetAnnotator.run
      (PointWidgetAnnotator.mk ["B"; "A"] "B" []
         (PointWidgetAnnotator.empty_groups ["B"; "A"]) 0)
      [PointWidgetAnnotator.Action [2; 5] "A";
       PointWidgetAnnotator.Action [5; 7; 5] "B"] = Ok states ∧
    Forall (λ self, ∀ g, g ∈ (PointWidgetViews.group_table self).*1 ↔ g ∈ ["B"; "A"])
           states.
Proof.
  apply (group_table_labels ["B"; "A"]); [reflexivity|].
  repeat constructor.
Defined.

(** ** Recoloured points *)

Section traverse.
Import PointWidgetViews.
Context {A B : Type} (f : A → result B).

Lemma traverse_Ok (xs : list A) : ∀ ys,
  traverse f xs = Ok ys → Forall2 (λ x y, f x = Ok y) xs ys.
Proof.
  induction xs as [|x xs IH]; intros ys; simpl.
  - intros [= <-]. constructor.
  - destruct (f x) as [y|e] eqn:Hx; simpl; [|done].
    destruct (traverse f xs) as [ys'|e]; simpl; [|done].
    intros [= <-]. constructor; [done|]. by apply IH.
Qed.

Lemma traverse_returns (xs : list A) :
  (∀ x, x ∈ xs → is_ok (f x)) → is_ok (traverse f xs).
Proof.
  induction xs as [|x xs IH]; intros Hall; simpl; [by eexists|].
  destruct (Hall x) as [y ->]; [left|]. simpl.
  destruct IH as [ys ->]; [intros ??; apply Hall; by right|]. simpl. by eexists.
Qed.

(** When [f] raises nothing but [e], so does the loop. *)
Lemma traverse_raises (e : exn) (xs : list A) :
  (∀ x, x ∈ xs → f x = Raise e ∨ is_ok (f x)) →
  traverse f xs = Raise e ∨ is_ok (traverse f xs).
Proof.
  induction xs as [|x xs IH]; intros Hall; simpl; [right; by eexists|].
  destruct (Hall x) as [->|[y ->]]; [left|by left|]. simpl.
  destruct IH as [->|[ys ->]]; [intros ??; apply Hall; by right|by left|].
  simpl. right. by eexists.
Qed.

Lemma Forall2_results (xs : list A) (ys : list B) :
  Forall2 (λ x y, f x = Ok y) xs ys →
  ∀ y, y ∈ ys ↔ ∃ x, x ∈ xs ∧ f x = Ok y.
Proof.
  induction 1 as [|x y xs ys Hxy _ IH]; intros y0.
  - rewrite elem_of_nil. split; [done|]. by intros (x & ?%elem_of_nil & _).
  - rewrite elem_of_cons, IH. split.
    + intros [->|(x' & ? & ?)]; [exists x; split; [left|done]|].
      exists x'. split; [by right|done].
    + intros (x' & [->|?]%elem_of_cons & Hx').
      * left. congruence.
      * right. eauto.
Qed.

End traverse.

Section annotated.
Import PointWidgetViews.
Context {F : Type}.

Implicit Types (rows : list (Element.row F)) (element : Element.Dataset F).

Lemma elem_of_concat {X : Type} (x : X) (ls : list (list X)) :
  x ∈ concat ls ↔ ∃ l, l ∈ ls ∧ x ∈ l.
Proof.
  induction ls as [|l ls IH]; simpl.
  - rewrite elem_of_nil. split; [done|]. by intros (l & ?%elem_of_nil & _).
  - rewrite elem_of_app, IH. split.
    + intros [?|(l' & ? & ?)]; [exists l; split; [left|done]|].
      exists l'. split; [by right|done].
    + intros (l' & [->|?]%elem_of_cons & ?); eauto.
Qed.

Lemma iloc1_returns rows (i : Z) :
  is_ok (iloc1 rows i) ↔ in_range (length rows) i.
Proof.
  unfold iloc1, in_range, is_ok.
  set (n := Z.of_nat (length rows)).
  destruct (decide (i < 0)) as [Hneg|Hpos];
    (case_decide as Hpos'; [|split; [by intros [? ?]|lia]]).
  - destruct (lookup_lt_is_Some_2 rows (Z.to_nat (n + i))) as [r ->]; [lia|].
    split; [lia|eauto].
  - destruct (lookup_lt_is_Some_2 rows (Z.to_nat i)) as [r ->]; [lia|].
    split; [lia|eauto].
Qed.

Lemma iloc1_cases rows (i : Z) :
  iloc1 rows i = Raise IndexError ∨ is_ok (iloc1 rows i).
Proof.
  unfold iloc1, is_ok. case_decide; [|by left].
  destruct (rows !! _); [right; eauto|by left].
Qed.

Lemma tagged_rows_cases column element (item : string * list Z) :
  tagged_rows column element item = Raise IndexError
  ∨ is_ok (tagged_rows column element item).
Proof.
  unfold tagged_rows, iloc.
  destruct (traverse_raises (iloc1 (Element.rows element)) IndexError item.2)
    as [->|[df ->]]; [intros ??; apply iloc1_cases|by left|].
  right. simpl. by eexists.
Qed.

Lemma tagged_rows_returns column element (item : string * list Z) :
  is_ok (tagged_rows column element item)
  ↔ ∀ idx, idx ∈ item.2 → in_range (length (Element.rows element)) idx.
Proof.
  unfold tagged_rows, iloc. split.
  - intros [rs Hrs] idx Hidx.
    destruct (traverse (iloc1 (Element.rows element)) item.2) as [df|] eqn:Hdf; [|done].
    apply traverse_Ok in Hdf. apply iloc1_returns.
    apply list_elem_of_lookup in Hidx as [k Hk].
    destruct (Forall2_lookup_l _ _ _ _ _ Hdf Hk) as (pt & _ & Hpt). by exists pt.
  - intros Hall.
    destruct (traverse_returns (iloc1 (Element.rows element)) item.2) as [df ->].
    { intros idx Hidx. by apply iloc1_returns, Hall. }
    simpl. by eexists.
Qed.

Global Instance label_le_trans column : Transitive (@label_le F column).
Proof. intros a b c. unfold label_le. apply transitivity. Qed.

Global Instance label_le_total column : Total (@label_le F column).
Proof. intros a b. unfold label_le. apply total, _. Qed.

Lemma tagged_rows_Ok column element (item : string * list Z) rs :
  tagged_rows column element item = Ok rs →
  length rs = length item.2 ∧
  ∀ r, r ∈ rs ↔ ∃ idx point,
         idx ∈ item.2 ∧ iloc1 (Element.rows element) idx = Ok point ∧
         r = <[column := VStr item.1]> point.
Proof.
  unfold tagged_rows, iloc.
  destruct (traverse (iloc1 (Element.rows element)) item.2) as [df|] eqn:Hdf; [|done].
  simpl. intros [= <-]. apply traverse_Ok in Hdf. split.
  - rewrite length_fmap. symmetry. by eapply Forall2_length.
  - intros r. rewrite list_elem_of_fmap. split.
    + intros (pt & -> & Hpt). apply (Forall2_results _ _ _ Hdf) in Hpt as (idx & ? & ?).
      by exists idx, pt.
    + intros (idx & pt & Hidx & Hpt & ->). exists pt. split; [done|].
      apply (Forall2_results _ _ _ Hdf). eauto.
Qed.

Lemma concat_lengths (items : list (string * list Z))
    (groups : list (list (Element.row F))) :
  Forall2 (λ item rs, length rs = length item.2) items groups →
  length (concat groups) = length (concat items.*2).
Proof.
  induction 1 as [|item rs items groups Hlen _ IH]; [done|].
  simpl. rewrite !length_app. by rewrite Hlen, IH.
Qed.

(** The rows of the recoloured points, when every member index is a
    position that [iloc] accepts. *)
Lemma annotated_points_spec column (self : PointWidgetAnnotator.t) element :
  (∀ g inds idx, PointWidgetAnnotator._group_data self !! g = Some inds →
                 idx ∈ inds → in_range (length (Element.rows element)) idx) →
  ∃ el,
    annotated_points column self element = Ok el ∧
    Element.kdims el = Element.kdims element ∧
    Element.vdims el = [column] ∧
    StronglySorted (label_le column) (Element.rows el) ∧
    length (Element.rows el)
      = length (concat (map_to_list (PointWidgetAnnotator._group_data self)).*2) ∧
    ∀ r, r ∈ Element.rows el
         ↔ ∃ g inds idx point,
             PointWidgetAnnotator._group_data self !! g = Some inds ∧ idx ∈ inds ∧
             iloc1 (Element.rows element) idx = Ok point ∧
             r = <[column := VStr g]> point.
Proof.
  intros Hrange. unfold annotated_points.
  set (items := map_to_list (PointWidgetAnnotator._group_data self)).
  destruct (traverse_returns (tagged_rows column element) items) as [groups Hgroups].
  { intros [g inds] Hin%elem_of_map_to_list. apply tagged_rows_returns.
    intros idx Hidx. by eapply Hrange. }
  rewrite Hgroups. simpl. apply traverse_Ok in Hgroups.
  set (data := match groups with
               | [] => []
               | _ => merge_sort (label_le column) (concat groups)
               end).
  assert (data ≡ₚ concat groups) as Hperm.
  { unfold data. destruct groups; [done|]. apply merge_sort_Permutation. }
  assert (StronglySorted (label_le column) data) as Hsorted.
  { unfold data. destruct groups; [constructor|].
    apply StronglySorted_merge_sort; apply _. }
  eexists. split; [done|]. simpl. split_and!; [done|done|done| |].
  - rewrite Hperm. apply concat_lengths.
    eapply Forall2_impl; [done|]. intros item rs Hrs. simpl in Hrs.
    by apply tagged_rows_Ok in Hrs as [? _].
  - intros r. rewrite Hperm, elem_of_concat. split.
    + intros (rs & Hrs & Hr).
      apply (Forall2_results _ _ _ Hgroups) in Hrs as ([g inds] & Hitem & Hok).
      apply elem_of_map_to_list in Hitem.
      apply tagged_rows_Ok in Hok as [_ Hok].
      apply Hok in Hr as (idx & pt & ? & ? & ->). by exists g, inds, idx, pt.
    + intros (g & inds & idx & pt & Hg & Hidx & Hpt & ->).
      apply elem_of_map_to_list in Hg.
      apply list_elem_of_lookup in Hg as [k Hk].
      destruct (Forall2_lookup_l _ _ _ _ _ Hgroups Hk) as (rs & Hrs & Hok).
      exists rs. split; [by eapply list_elem_of_lookup_2|].
      apply tagged_rows_Ok in Hok as [_ Hok]. apply Hok. by exists idx, pt.
Qed.

Lemma NoDup_concat_items (items : list (string * list Z)) :
  NoDup items.*1 →
  (∀ g inds, (g, inds) ∈ items → NoDup inds) →
  (∀ g1 g2 inds1 inds2 idx, g1 ≠ g2 → (g1, inds1) ∈ items → (g2, inds2) ∈ items →
     idx ∈ inds1 → idx ∉ inds2) →
  NoDup (concat items.*2).
Proof.
  induction items as [|[g inds] items IH]; intros Hkeys Hnd Hdisj; simpl; [constructor|].
  rewrite fmap_cons in Hkeys. apply NoDup_cons in Hkeys as [Hg Hkeys].
  apply NoDup_app. split_and!.
  - apply (Hnd g). left.
  - intros idx Hidx (inds' & Hin & Hidx')%elem_of_concat.
    apply list_elem_of_fmap in Hin as ([g' inds''] & -> & Hin). simpl in *.
    apply (Hdisj g g' inds inds'' idx); [|left|by right|done|done].
    intros ->. apply Hg. apply list_elem_of_fmap. by exists (g', inds'').
  - apply IH; [done| |].
    + intros g' inds' ?. apply (Hnd g'). by right.
    + intros g1 g2 i1 i2 idx ? ? ?. apply (Hdisj g1 g2); [done|by right|by right].
Qed.

End annotated.

(** X17.  The recoloured point view is computed exactly when every member
    index of every group is a position of a point, counted from the start
    or, if negative, from the end; otherwise [IndexError] is raised. *)
Theorem annotated_points_returns_iff
    {F : Type} (column : string) (self : PointWidgetAnnotator.t)
    (element : Element.Dataset F) :
  (is_ok (PointWidgetViews.annotated_points column self element)
   ↔ ∀ g inds idx, PointWidgetAnnotator._group_data self !! g = Some inds →
                   idx ∈ inds →
                   PointWidgetViews.in_range (length (Element.rows element)) idx) ∧
  (¬ is_ok (PointWidgetViews.annotated_points column self element) →
   PointWidgetViews.annotated_points column self element = Raise IndexError).
Proof.
  split.
  - split.
    + intros [el Hel] g inds idx Hg Hidx.
      unfold PointWidgetViews.annotated_points in Hel.
      destruct (PointWidgetViews.traverse _ _) as [groups|] eqn:Hgroups; [|done].
      apply traverse_Ok in Hgroups. apply elem_of_map_to_list in Hg.
      apply list_elem_of_lookup in Hg as [k Hk].
      destruct (Forall2_lookup_l _ _ _ _ _ Hgroups Hk) as (rs & _ & Hok).
      assert (is_ok (PointWidgetViews.tagged_rows column element (g, inds))) as Hret
        by (by exists rs).
      by apply (proj1 (tagged_rows_returns column element (g, inds)) Hret).
    + intros Hrange.
      destruct (annotated_points_spec column self element Hrange) as (el & -> & _).
      by exists el.
  - intros Hnot. unfold PointWidgetViews.annotated_points in *.
    destruct (traverse_raises (PointWidgetViews.tagged_rows column element) IndexError
                (map_to_list (PointWidgetAnnotator._group_data self)))
      as [->|[groups Hgroups]]; [intros ??; apply tagged_rows_cases|done|].
    rewrite Hgroups in Hnot. destruct Hnot. simpl. by eexists.
Qed.

(** X18.  When every member index is a position of a point, the recoloured
    point view has the key dimensions of the point data and the group
    column as its only value dimension; its rows are the points of the
    member indices of every group, each with the label of its group in the
    group column, as many rows as there are members, sorted by label. *)
Theorem annotated_points_rows
    {F : Type} (column : string) (self : PointWidgetAnnotator.t)
    (element : Element.Dataset F) :
  (∀ g inds idx, PointWidgetAnnotator._group_data self !! g = Some inds →
                 idx ∈ inds →
                 PointWidgetViews.in_range (length (Element.rows element)) idx) →
  ∃ el,
    PointWidgetViews.annotated_points column self element = Ok el ∧
    Element.kdims el = Element.kdims element ∧
    Element.vdims el = [column] ∧
    StronglySorted (PointWidgetViews.label_le column) (Element.rows el) ∧
    length (Element.rows el)
      = length (concat (map_to_list (PointWidgetAnnotator._group_data self)).*2) ∧
    ∀ r, r ∈ Element.rows el
         ↔ ∃ g inds idx point,
             PointWidgetAnnotator._group_data self !! g = Some inds ∧ idx ∈ inds ∧
             PointWidgetViews.iloc1 (Element.rows element) idx = Ok point ∧
             r = <[column := VStr g]> point.
Proof. apply annotated_points_spec. Qed.

(** X19.  When every index is in at most one membership list and at most
    once there, and every member index is the position of a point counted
    from the start, the recoloured point view has at most as many rows as
    there are points. *)
Theorem annotated_points_at_most_once
    {F : Type} (column : string) (self : PointWidgetAnnotator.t)
    (element : Element.Dataset F) :
  PointWidgetAnnotator.exclusive (PointWidgetAnnotator._group_data self) →
  (∀ g inds idx, PointWidgetAnnotator._group_data self !! g = Some inds →
                 idx ∈ inds → 0 ≤ idx < Z.of_nat (length (Element.rows element))) →
  ∃ el,
    PointWidgetViews.annotated_points column self element = Ok el ∧
    (length (Element.rows el) ≤ length (Element.rows element))%nat.
Proof.
  intros [Hnd Hdisj] Hrange.
  destruct (annotated_points_spec column self element) as (el & Hel & _ & _ & _ & Hlen & _).
  { intros g inds idx Hg Hidx. specialize (Hrange g inds idx Hg Hidx).
    unfold PointWidgetViews.in_range. lia. }
  exists el. split; [done|]. rewrite Hlen.
  set (items := map_to_list (PointWidgetAnnotator._group_data self)).
  assert (NoDup (concat items.*2)) as Hall.
  { apply NoDup_concat_items.
    - apply NoDup_fst_map_to_list.
    - intros g inds Hin%elem_of_map_to_list. by eapply Hnd.
    - intros g1 g2 i1 i2 idx Hne H1%elem_of_map_to_list H2%elem_of_map_to_list.
      by eapply Hdisj. }
  assert (concat items.*2 ⊆+ seqZ 0 (Z.of_nat (length (Element.rows element)))) as Hsub.
  { apply NoDup_submseteq; [done|]. intros idx (inds & Hin & Hidx)%elem_of_concat.
    apply list_elem_of_fmap in Hin as ([g inds'] & -> & Hin%elem_of_map_to_list).
    apply elem_of_seqZ. specialize (Hrange g inds' idx Hin Hidx). lia. }
  apply submseteq_length in Hsub. rewrite length_seqZ in Hsub. lia.
Qed.

Lemma sample_annotator_lookup (g : string) (inds : list Z) :
  PointWidgetAnnotator._group_data sample_annotator !! g = Some inds →
  (g = "A" ∧ inds = [2; 0]) ∨ (g = "B" ∧ inds = [1]).
Proof.
  simpl. destruct (decide (g = "A")) as [->|HA].
  - rewrite lookup_insert_eq. intros [= <-]. by left.
  - rewrite lookup_insert_ne by done. destruct (decide (g = "B")) as [->|HB].
    + rewrite lookup_singleton_eq. intros [= <-]. by right.
    + by rewrite lookup_singleton_ne.
Qed.

Lemma sample_annotator_positions (g : string) (inds : list Z) (idx : Z) :
  PointWidgetAnnotator._group_data sample_annotator !! g = Some inds →
  idx ∈ inds → 0 ≤ idx < 3.
Proof.
  intros [[_ ->]|[_ ->]]%sample_annotator_lookup Hidx;
    repeat (apply elem_of_cons in Hidx as [->|Hidx]; [lia|]);
    by apply elem_of_nil in Hidx.
Qed.

Lemma sample_annotator_exclusive :
  PointWidgetAnnotator.exclusive (PointWidgetAnnotator._group_data sample_annotator).
Proof.
  split.
  - intros g inds [[_ ->]|[_ ->]]%sample_annotator_lookup;
      repeat (apply NoDup_cons; split; [by compute_done|]); apply NoDup_nil_2.
  - intros g1 g2 inds1 inds2 idx Hne
      [[-> ->]|[-> ->]]%sample_annotator_lookup
      [[-> ->]|[-> ->]]%sample_annotator_lookup Hin1 Hin2; try done;
      repeat (apply elem_of_cons in Hin1 as [->|Hin1];
              [repeat (apply elem_of_cons in Hin2 as [?|Hin2]; [done|]);
               by apply elem_of_nil in Hin2|]);
      by apply elem_of_nil in Hin1.
Qed.

Lemma annotated_points_rows_witness :
  ∃ el,
    PointWidgetViews.annotated_points "Group" sample_annotator
      (Element.Points sample_points ["Longitude"; "Latitude"]) = Ok el ∧
    Element.kdims el = ["Longitude"; "Latitude"] ∧
    Element.vdims el = ["Group"] ∧
    StronglySorted (PointWidgetViews.label_le "Group") (Element.rows el) ∧
    length (Element.rows el)
      = length (concat (map_to_list
                          (PointWidgetAnnotator._group_data sample_annotator)).*2) ∧
    ∀ r, r ∈ Element.rows el
         ↔ ∃ g inds idx point,
             PointWidgetAnnotator._group_data sample_annotator !! g = Some inds ∧
             idx ∈ inds ∧
             PointWidgetViews.iloc1
               (Element.rows (Element.Points sample_points ["Longitude"; "Latitude"]))
               idx = Ok point ∧
             r = <["Group" := VStr g]> point.
Proof.
  apply (annotated_points_rows "Group" sample_annotator
           (Element.Points sample_points ["Longitude"; "Latitude"])).
  intros g inds idx Hg Hidx.
  pose proof (sample_annotator_positions g inds idx Hg Hidx).
  unfold PointWidgetViews.in_range. simpl. lia.
Defined.

Lemma annotated_points_at_most_once_witness :
  ∃ el,
    PointWidgetViews.annotated_points "Group" sample_annotator
      (Element.Points sample_points ["Longitude"; "Latitude"]) = Ok el ∧
    (length (Element.rows el)
     ≤ length (Element.rows (Element.Points sample_points ["Longitude"; "Latitude"])))%nat.
Proof.
  apply (annotated_points_at_most_once "Group" sample_annotator
           (Element.Points sample_points ["Longitude"; "Latitude"])).
  - exact sample_annotator_exclusive.
  - intros g inds idx Hg Hidx.
    pose proof (sample_annotator_positions g inds idx Hg Hidx). simpl. lia.
Defined.
